(** * zenfin: portfolio statistics ([zenfin/stats.py])

    A shallow embedding of the statistics of [zenfin/stats.py] and the
    properties its specification states about them.

    Numbers.  The program computes on IEEE binary64 values through numpy and
    pandas.  The embedding keeps the special values of that arithmetic
    (the two infinities and the not-a-number "missing" value) and the rules
    that produce them (division by zero, square root of a negative number,
    powers), and it computes on finite values with exact real arithmetic:
    rounding is not modelled.  The two zeros are identified; the zero
    denominators met below are results of [abs], [sqrt] or a count, that is
    the positive zero.

    Series.  A [series] is one column of a frame: the list of its finite,
    non-missing observations in time order.  Functions that the source
    applies to a whole frame column by column are given for one column;
    functions whose source loops over the columns explicitly
    ([autocorr_penalty], [value_at_risk], [beta], [alpha], [r_squared]) are
    also given for a frame. *)

From Stdlib Require Import Reals Lra Lia ZArith Bool String List.
Import ListNotations.
Open Scope R_scope.

(** ** Floating-point values with exact finite arithmetic *)

Module Float.

Inductive float : Type :=
| Fin (r : R)
| PInf
| NInf
| NaN.

Definition Rltb (a b : R) : bool := if Rlt_dec a b then true else false.
Definition Reqb (a b : R) : bool := if Req_dec_T a b then true else false.

Definition is_nan (x : float) : bool :=
  match x with NaN => true | _ => false end.

Definition fneg (x : float) : float :=
  match x with
  | Fin a => Fin (- a)
  | PInf => NInf
  | NInf => PInf
  | NaN => NaN
  end.

Definition fabs (x : float) : float :=
  match x with
  | Fin a => Fin (Rabs a)
  | PInf | NInf => PInf
  | NaN => NaN
  end.

(** [signed a i]: the infinity [i] with the sign of the finite factor [a];
    a zero factor gives not-a-number. *)
Definition signed (a : R) (i : float) : float :=
  if Rlt_dec 0 a then i else if Rlt_dec a 0 then fneg i else NaN.

Definition fadd (x y : float) : float :=
  match x, y with
  | NaN, _ | _, NaN => NaN
  | Fin a, Fin b => Fin (a + b)
  | PInf, NInf | NInf, PInf => NaN
  | PInf, _ | _, PInf => PInf
  | NInf, _ | _, NInf => NInf
  end.

Definition fsub (x y : float) : float := fadd x (fneg y).

Definition fmul (x y : float) : float :=
  match x, y with
  | NaN, _ | _, NaN => NaN
  | Fin a, Fin b => Fin (a * b)
  | Fin a, PInf | PInf, Fin a => signed a PInf
  | Fin a, NInf | NInf, Fin a => signed a NInf
  | PInf, PInf | NInf, NInf => PInf
  | PInf, NInf | NInf, PInf => NInf
  end.

(** Division never raises (numpy semantics): a finite non-zero value over
    zero is an infinity, zero over zero is not-a-number. *)
Definition fdiv (x y : float) : float :=
  match x, y with
  | NaN, _ | _, NaN => NaN
  | Fin a, Fin b => if Req_dec_T b 0 then signed a PInf else Fin (a / b)
  | Fin _, PInf | Fin _, NInf => Fin 0
  | PInf, Fin b => if Rlt_dec b 0 then NInf else PInf
  | NInf, Fin b => if Rlt_dec b 0 then PInf else NInf
  | PInf, PInf | PInf, NInf | NInf, PInf | NInf, NInf => NaN
  end.

(** [np.sqrt]: not-a-number on a negative argument. *)
Definition fsqrt (x : float) : float :=
  match x with
  | Fin a => if Rlt_dec a 0 then NaN else Fin (sqrt a)
  | PInf => PInf
  | NInf | NaN => NaN
  end.

Definition is_integer (b : R) : bool := Reqb b (IZR (Int_part b)).

(** [x ** y] on floats (the C [pow]). *)
Definition fpow (x y : float) : float :=
  match y with
  | Fin b =>
      if Req_dec_T b 0 then Fin 1 else
      match x with
      | Fin a =>
          if Req_dec_T a 1 then Fin 1
          else if Rlt_dec 0 a then Fin (Rpower a b)
          else if Req_dec_T a 0 then (if Rlt_dec 0 b then Fin 0 else PInf)
          else if is_integer b then Fin (powerRZ a (Int_part b))
          else NaN
      | PInf => if Rlt_dec 0 b then PInf else Fin 0
      | NInf =>
          if Rlt_dec 0 b
          then (if is_integer b && Z.odd (Int_part b) then NInf else PInf)
          else Fin 0
      | NaN => NaN
      end
  | PInf =>
      match x with
      | Fin a =>
          if Rlt_dec (Rabs a) 1 then Fin 0
          else if Req_dec_T (Rabs a) 1 then Fin 1 else PInf
      | PInf | NInf => PInf
      | NaN => NaN
      end
  | NInf =>
      match x with
      | Fin a =>
          if Rlt_dec (Rabs a) 1 then PInf
          else if Req_dec_T (Rabs a) 1 then Fin 1 else Fin 0
      | PInf | NInf => Fin 0
      | NaN => NaN
      end
  | NaN =>
      match x with
      | Fin a => if Req_dec_T a 1 then Fin 1 else NaN
      | _ => NaN
      end
  end.

(** [np.clip(x, lo, hi)]; not-a-number passes through. *)
Definition fclip (lo hi : R) (x : float) : float :=
  match x with
  | Fin a => if Rlt_dec a lo then Fin lo else if Rlt_dec hi a then Fin hi else Fin a
  | PInf => Fin hi
  | NInf => Fin lo
  | NaN => NaN
  end.

(** [np.sum] of a list of floats; the empty sum is 0. *)
Definition fsum (l : list float) : float := fold_left fadd l (Fin 0).

(** [x] is a number that is not below [b]: a finite value at least [b],
    or plus infinity. *)
Definition at_least (b : R) (x : float) : Prop :=
  match x with
  | Fin v => b <= v
  | PInf => True
  | NInf | NaN => False
  end.

(** [x] is a finite value within [tol] of [c]. *)
Definition fapprox (tol : R) (x : float) (c : R) : Prop :=
  match x with
  | Fin v => Rabs (v - c) <= tol
  | _ => False
  end.

End Float.
Export Float.

(** ** Outcome of a call: a value, or a raised exception *)

Inductive outcome (A : Type) : Type :=
| Returned (v : A)
| Raised (msg : string).
Arguments Returned {A} v.
Arguments Raised {A} msg.

Definition bind {A B : Type} (c : outcome A) (k : A -> outcome B) : outcome B :=
  match c with
  | Returned v => k v
  | Raised msg => Raised msg
  end.

Notation "x <- c ;; k" := (bind c (fun x => k))
  (at level 61, c at next level, right associativity).

(** ** Series and the pandas / numpy / scipy primitives the source calls *)

Module Series.

Definition series : Type := list R.

(** A frame: its columns in order, each with its name. *)
Definition frame : Type := list (string * series).

Definition sum (s : series) : R := fold_right Rplus 0 s.
Definition prod (s : series) : R := fold_right Rmult 1 s.
Definition count (s : series) : nat := length s.

(** The selections [s[s > 0]], [s[s < 0]] and [s[s != 0]]. *)
Definition positive (s : series) : series := filter (fun x => Rltb 0 x) s.
Definition negative (s : series) : series := filter (fun x => Rltb x 0) s.
Definition nonzero (s : series) : series := filter (fun x => negb (Reqb x 0)) s.

(** [s.mean()]: missing on an empty series. *)
Definition mean (s : series) : float :=
  fdiv (Fin (sum s)) (Fin (INR (count s))).

(** The arithmetic mean as a real number (used where the series is known
    to be non-empty). *)
Definition avg (s : series) : R := sum s / INR (count s).

Definition sum_sq_dev (s : series) : R :=
  sum (map (fun x => (x - avg s) * (x - avg s)) s).

(** [s.std(ddof=1)] (the pandas default): missing with fewer than two
    observations. *)
Definition std (s : series) : float :=
  if (count s <=? 1)%nat then NaN
  else Fin (sqrt (sum_sq_dev s / (INR (count s) - 1))).

(** [s.min()]: missing on an empty series. *)
Definition smin (s : series) : float :=
  match s with
  | [] => NaN
  | x :: t => Fin (fold_left Rmin t x)
  end.

(** Sum of the products of the deviations of paired observations. *)
Definition sum_codev (x y : series) : R :=
  let p := combine x y in
  let mx := avg (map fst p) in
  let my := avg (map snd p) in
  sum (map (fun q => (fst q - mx) * (snd q - my)) p).

(** An entry of [df.cov()] / [np.cov(x, y)]: sample covariance (ddof=1) of
    two columns over their paired observations; missing with fewer than two
    pairs. *)
Definition cov (x y : series) : float :=
  let n := length (combine x y) in
  if (n <=? 1)%nat then NaN
  else fdiv (Fin (sum_codev x y)) (Fin (INR n - 1)).

(** [np.corrcoef(x, y)[0, 1]]: the covariance divided by the standard
    deviation of each argument in turn, clipped to [-1, 1]. *)
Definition corrcoef (x y : series) : float :=
  let c := cov x y in
  let sx := fsqrt (cov x x) in
  let sy := fsqrt (cov y y) in
  fclip (-1) 1 (fdiv (fdiv c sx) sy).

(** The observations of the window of length [w] that ends at position
    [i]. *)
Definition window_at (w : nat) (s : series) (i : nat) : series :=
  firstn w (skipn (S i - w) s).

(** [s.rolling(window).stat()]: pandas rejects a negative window; a
    position with fewer than [window] observations so far is missing. *)
Definition rolling (window : Z) (stat : series -> float) (s : series)
  : outcome (list float) :=
  if (window <? 0)%Z then Raised "window must be an integer 0 or greater"
  else
    let w := Z.to_nat window in
    Returned (map (fun i => if (S i <? w)%nat then NaN else stat (window_at w s i))
                  (seq 0 (length s))).

(** Element-wise quotient of two derived series over their common
    positions. *)
Definition div_series (a b : list float) : list float :=
  map (fun p => fdiv (fst p) (snd p)) (combine a b).

Section Scipy.

(** The quantile function of the standard normal law on the open unit
    interval ([scipy.special.ndtri]). *)
Variable ndtri : R -> R.

(** [scipy.stats.norm.ppf(q, loc, scale)]: missing unless the scale is
    positive and the location is a number; the end points of the unit
    interval map to the infinities; any other [q] outside it is
    missing. *)
Definition norm_ppf (q : R) (loc scale : float) : float :=
  let ok := match scale with
            | Fin s => Rltb 0 s
            | PInf => true
            | _ => false
            end && negb (is_nan loc) in
  if negb ok then NaN
  else if Rltb 0 q && Rltb q 1 then fadd (fmul (Fin (ndtri q)) scale) loc
  else if Reqb q 0 then fadd (fmul NInf scale) loc
  else if Reqb q 1 then fadd (fmul PInf scale) loc
  else NaN.

End Scipy.

(** The correlation coefficient returned by [scipy.stats.linregress(x, y)]
    (its third result): built from the population (bias=1) covariances
    of two samples of the same length. *)
Definition linregress_rvalue (x y : series) : outcome float :=
  match x, y with
  | [], _ | _, [] => Raised "Inputs must not be empty."
  | x0 :: xt, _ =>
      if forallb (fun v => Reqb v x0) xt && (1 <? length x)%nat
      then Raised "Cannot calculate a linear regression if all x values are identical"
      else if negb (length x =? length y)%nat
      then Raised "all the input array dimensions must match exactly"
      else
        let n := INR (length x) in
        let ssxm := sum_codev x x / n in
        let ssxym := sum_codev x y / n in
        let ssym := sum_codev y y / n in
        if Reqb ssxm 0 || Reqb ssym 0 then Returned (Fin 0)
        else Returned (fclip (-1) 1 (fdiv (Fin ssxym) (fsqrt (Fin (ssxm * ssym)))))
  end.

End Series.
Export Series.

(** ** The helpers of [zenfin/utils.py] *)

Module Utils.

(** The risk-free rate argument: one number for every period, or one
    number per period. *)
Inductive rate : Type :=
| Scalar (rf : R)
| Periodic (rf : series).

(** Modelled from the spec: [utils.clean] is not among the sources and the
    specification does not describe it.  A [series] here holds finite,
    non-missing observations only, on which cleaning has nothing to
    remove. *)
Definition clean (returns : series) : series := returns.

Definition clean_frame (returns : frame) : frame :=
  map (fun c => (fst c, clean (snd c))) returns.

Section Excess.

(** The conversion of an annualised rate to a per-period rate given the
    number of periods per year; the specification names the step and not
    its formula. *)
Variable deannualize : R -> Z -> R.

(** Modelled from the spec: [utils.to_excess_returns] is not among the
    sources.  Section 4.6: the excess return is [r_t - rf_t], where [rf]
    is a scalar (broadcast) or a periodic series, de-annualised to
    periodic terms using [periods] before the subtraction.  A periodic
    [rf] is paired with the returns position by position. *)
Definition to_excess_returns (returns : series) (rf : rate) (periods : Z)
  : series :=
  match rf with
  | Scalar x => map (fun r => r - deannualize x periods) returns
  | Periodic s =>
      map (fun p => fst p - deannualize (snd p) periods) (combine returns s)
  end.

End Excess.

(** Modelled from the spec: the de-annualisation step of
    [utils.to_excess_returns], which is not among the sources; the
    specification names the step and not its formula.  The compound
    conversion of a yearly rate [rf] to one of [periods] periods per year
    is taken, [(1 + rf) ** (1 / periods) - 1].  It is used below at a zero
    rate, which it leaves at zero, and with [periods = 1], where it leaves
    the rate unchanged. *)
Definition deannualize_compound (rf : R) (periods : Z) : R :=
  Rpower (1 + rf) (1 / IZR periods) - 1.

(** Modelled from the spec: [utils.to_drawdown_series] is not among the
    sources.  Sections 3 and 4.2: the cumulative curve is the running
    product of [(1 + return)] minus 1; the running peak is the maximum of
    the curve up to and including the position; the drawdown is
    [curve / running_peak - 1], or 0 if the running peak is not
    positive. *)
Fixpoint cumulative_curve (acc : R) (returns : series) : series :=
  match returns with
  | [] => []
  | r :: t => (acc * (1 + r) - 1) :: cumulative_curve (acc * (1 + r)) t
  end.

Fixpoint drawdown_from (peak : option R) (curve : series) : series :=
  match curve with
  | [] => []
  | v :: t =>
      let pk := match peak with Some p => Rmax p v | None => v end in
      (if Rlt_dec 0 pk then v / pk - 1 else 0) :: drawdown_from (Some pk) t
  end.

Definition to_drawdown_series (returns : series) : series :=
  drawdown_from None (cumulative_curve 1 returns).

End Utils.
Export Utils.

(** ** [zenfin/stats.py] *)

Module Stats.

(** [total_return]: [returns.add(1).prod() - 1]. *)
Definition total_return (returns : series) : R :=
  prod (map (fun r => r + 1) returns) - 1.

(** [cagr]. *)
Definition cagr (returns : series) (compounded : bool) (periods : Z) : float :=
  let total := if compounded then total_return returns else sum returns in
  let years := fdiv (Fin (IZR (Z.of_nat (count returns) - 1))) (Fin (IZR periods)) in
  fsub (fpow (fabs (Fin (total + 1))) (fdiv (Fin 1) years)) (Fin 1).

(** [volatility]; nothing in it raises. *)
Definition volatility (returns : series) (periods : Z) (annualize : bool)
  : outcome float :=
  let std := std returns in
  if annualize then Returned (fmul std (fsqrt (Fin (IZR periods))))
  else Returned std.

(** [rolling_volatility]. *)
Definition rolling_volatility (returns : series) (rolling_period periods_per_year : Z)
  : outcome (list float) :=
  r <- rolling rolling_period std returns ;;
  Returned (map (fun v => fmul v (fsqrt (Fin (IZR periods_per_year)))) r).

(** [autocorr_penalty], the body of its loop for one (cleaned) column. *)
Definition autocorr_penalty_column (col : series) : float :=
  let num := count col in
  let coef := fabs (corrcoef (removelast col) (tl col)) in
  let corr :=
    map (fun x => fmul (fdiv (Fin (IZR (Z.of_nat num - Z.of_nat x))) (Fin (INR num)))
                       (fpow coef (Fin (INR x))))
        (seq 1 (num - 1)) in
  fsqrt (fadd (Fin 1) (fmul (Fin 2) (fsum corr))).

(** [autocorr_penalty]: one result per column. *)
Definition autocorr_penalty (returns : frame) : list (string * float) :=
  map (fun c => (fst c, autocorr_penalty_column (snd c))) (clean_frame returns).

(** [avg_win], [avg_loss] and [payoff_ratio] with their defaults. *)
Definition avg_win (returns : series) : float := mean (positive returns).
Definition avg_loss (returns : series) : float := mean (negative returns).
Definition payoff_ratio (returns : series) : float :=
  fdiv (avg_win returns) (fabs (avg_loss returns)).

(** The number of columns of a frame that carry the label [c]. *)
Definition label_count (c : string) (df : frame) : nat :=
  length (filter (fun d => String.eqb c (fst d)) df).

(** [beta]: [returns] and [benchmark] are concatenated column-wise, the
    labels of both kept.  For each column [c] of [returns] the result is
    the entry of the covariance matrix at [c] and the last column, over the
    entry at the last column twice.  When the label of [c] names more than
    one column of the concatenated frame (the benchmark carries the label
    of an asset column, say), [matrix[c]] is not a single column, the entry
    for [c] is not a number, and building the result raises. *)
Definition beta (returns benchmark : frame) : outcome (list (string * float)) :=
  let df := returns ++ benchmark in
  let last_column := snd (last df (EmptyString, [])) in
  if existsb (fun c => (1 <? label_count (fst c) df)%nat) returns
  then Raised "cannot reindex on an axis with duplicate labels"
  else Returned
         (map (fun c => (fst c, fdiv (cov (snd c) last_column)
                                     (cov last_column last_column)))
              returns).

(** [alpha]: [beta] is computed first; the benchmark mean is that of the
    first benchmark column ([benchmark.mean().values[0]]). *)
Definition alpha (returns benchmark : frame) (periods : Z)
  : outcome (list (string * float)) :=
  _beta <- beta returns benchmark ;;
  match returns, benchmark with
  | [], _ => Returned []
  | _ :: _, [] => Raised "index 0 is out of bounds for axis 0 with size 0"
  | _ :: _, (_, b0) :: _ =>
      Returned
        (map (fun cb =>
                (fst (fst cb),
                 fmul (fsub (mean (snd (fst cb))) (fmul (snd (snd cb)) (mean b0)))
                      (Fin (IZR periods))))
             (combine returns _beta))
  end.

(** [r_squared]: the loop stops at the first column on which
    [linregress] raises. *)
Fixpoint r_squared_columns (returns : frame) (benchmark : series)
  : outcome (list (string * float)) :=
  match returns with
  | [] => Returned []
  | (c, col) :: rest =>
      r_val <- linregress_rvalue col benchmark ;;
      res <- r_squared_columns rest benchmark ;;
      Returned ((c, fpow r_val (Fin 2)) :: res)
  end.

Definition r_squared (returns : frame) (benchmark : series)
  : outcome (list (string * float)) :=
  r_squared_columns (clean_frame returns) (clean benchmark).

Section WithNormalQuantile.

Variable ndtri : R -> R.

(** [value_at_risk]: the [sigma] argument is overwritten before it is
    read; nothing in the function raises. *)
Definition value_at_risk (returns : frame) (sigma confidence : R)
  : outcome (list (string * float)) :=
  Returned
    (map (fun c =>
            let mu := mean (snd c) in
            let sigma := std (snd c) in
            (fst c, norm_ppf ndtri (1 - confidence) mu sigma))
         (clean_frame returns)).

End WithNormalQuantile.

Section WithAggregation.

(** [utils.aggregate_returns] is not among the sources; [win_rate] only
    passes its arguments through to it. *)
Variable key : Type.
Variable aggregate_returns : series -> key -> bool -> series.

(** [win_rate]. *)
Definition win_rate (returns : series) (aggregate : option key) (compounded : bool)
  : float :=
  let returns :=
    match aggregate with
    | Some k => aggregate_returns returns k compounded
    | None => returns
    end in
  fdiv (Fin (INR (count (positive returns)))) (Fin (INR (count (nonzero returns)))).

(** [risk_of_ruin]. *)
Definition risk_of_ruin (returns : series) : float :=
  let wins := win_rate returns None true in
  fpow (fdiv (fsub (Fin 1) wins) (fadd (Fin 1) wins)) (Fin (INR (count returns))).

(** [kelly_criterion]. *)
Definition kelly_criterion (returns : series) : float :=
  let win_loss_ratio := payoff_ratio returns in
  let win_prob := win_rate returns None true in
  let lose_prob := fsub (Fin 1) win_prob in
  fdiv (fsub (fmul win_loss_ratio win_prob) lose_prob) win_loss_ratio.

End WithAggregation.

Section WithExcess.

Variable deannualize : R -> Z -> R.

(** [sharpe], for one column. *)
Definition sharpe (returns : series) (rf : rate) (periods : Z)
           (annualize smart : bool) : float :=
  let excess_returns := to_excess_returns deannualize returns rf periods in
  let divisor := std excess_returns in
  let divisor :=
    if smart then fmul divisor (autocorr_penalty_column (clean returns))
    else divisor in
  let res := fdiv (mean excess_returns) divisor in
  if annualize then fmul res (fsqrt (Fin (IZR periods))) else res.

(** [rolling_sharpe]: the mean is the rolling mean of the excess
    returns, the deviation the rolling deviation of [returns]. *)
Definition rolling_sharpe (returns : series) (rf : rate) (rolling_period : Z)
           (annualize : bool) (periods_per_year : Z) : outcome (list float) :=
  let excess_returns := to_excess_returns deannualize returns rf periods_per_year in
  m <- rolling rolling_period mean excess_returns ;;
  s <- rolling rolling_period std returns ;;
  let res := div_series m s in
  if annualize
  then Returned (map (fun v => fmul v (fsqrt (Fin (IZR periods_per_year)))) res)
  else Returned res.

(** [sortino], for one column. *)
Definition sortino (returns : series) (rf : rate) (periods : Z)
           (annualize smart : bool) : float :=
  let excess_returns := to_excess_returns deannualize returns rf periods in
  let downside :=
    fsqrt (fdiv (Fin (sum (map (fun x => x * x) (negative excess_returns))))
                (Fin (INR (length excess_returns)))) in
  let downside :=
    if smart then fmul downside (autocorr_penalty_column (clean returns))
    else downside in
  let res := fdiv (mean excess_returns) downside in
  if annualize then fmul res (fsqrt (Fin (IZR periods))) else res.

(** [omega]. *)
Definition omega (returns : series) (required_returns : rate) (periods : Z)
  : float :=
  let returns_less_thresh :=
    to_excess_returns deannualize returns required_returns periods in
  let numer := sum (positive returns_less_thresh) in
  let denom := sum (negative returns_less_thresh) in
  fdiv (Fin numer) (fabs (Fin denom)).

End WithExcess.

Section WithDrawdown.

(** [utils.to_drawdown_series], a helper of [max_drawdown]. *)
Variable to_drawdown_series : series -> series.

(** [max_drawdown]. *)
Definition max_drawdown (returns : series) : float :=
  let dd := to_drawdown_series returns in
  smin dd.

(** [calmar]: [cagr] is called with its defaults. *)
Definition calmar (returns : series) : float :=
  let cagr_ratio := cagr returns true 252 in
  let max_dd := max_drawdown returns in
  fdiv cagr_ratio (fabs max_dd).

End WithDrawdown.

(** *** Further statistics of [zenfin/stats.py] *)

(** The selection [s[s >= 0]]. *)
Definition nonnegative (s : series) : series := filter (fun x => negb (Rltb x 0)) s.

(** The selection [s[s < threshold]] for a threshold that may be missing
    or infinite: no observation is below a missing threshold. *)
Definition below (threshold : float) (s : series) : series :=
  match threshold with
  | Fin v => filter (fun x => Rltb x v) s
  | PInf => s
  | NInf | NaN => []
  end.

(** [risk_return_ratio]. *)
Definition risk_return_ratio (returns : series) : float :=
  fdiv (mean returns) (std returns).

(** [profit_factor]. *)
Definition profit_factor (returns : series) : float :=
  fabs (fdiv (Fin (sum (nonnegative returns))) (Fin (sum (negative returns)))).

Section WithExcessMore.

Variable deannualize : R -> Z -> R.

(** [rolling_sortino]: the rolling sum of the squared negative excess
    returns over [rolling_period], and the rolling mean over its square
    root. *)
Definition rolling_sortino (returns : series) (rf : rate) (rolling_period : Z)
           (annualize : bool) (periods_per_year : Z) : outcome (list float) :=
  let excess_returns := to_excess_returns deannualize returns rf periods_per_year in
  d <- rolling rolling_period
         (fun x => Fin (sum (map (fun v => v * v) (negative x)))) excess_returns ;;
  let downside := map (fun v => fdiv v (Fin (IZR rolling_period))) d in
  m <- rolling rolling_period mean excess_returns ;;
  let res := div_series m (map fsqrt downside) in
  if annualize
  then Returned (map (fun v => fmul v (fsqrt (Fin (IZR periods_per_year)))) res)
  else Returned res.

End WithExcessMore.

Section WithDrawdownMore.

Variable to_drawdown_series : series -> series.

(** [ulcer_index]: [np.divide] does not raise on a zero divisor. *)
Definition ulcer_index (returns : series) : float :=
  let dd := to_drawdown_series returns in
  fsqrt (fdiv (Fin (sum (map (fun v => v * v) dd)))
              (Fin (IZR (Z.of_nat (length returns) - 1)))).

End WithDrawdownMore.

Section WithNormalQuantileMore.

Variable ndtri : R -> R.

(** [conditional_value_at_risk]: for each column, the mean of the
    observations strictly below the value at risk of that column. *)
Definition conditional_value_at_risk (returns : frame) (sigma confidence : R)
  : outcome (list (string * float)) :=
  var <- value_at_risk ndtri returns sigma confidence ;;
  Returned (map (fun cv => (fst (fst cv), mean (below (snd (snd cv)) (snd (fst cv)))))
                (combine returns var)).

End WithNormalQuantileMore.

Section WithAggregationMore.

(** [utils.aggregate_returns], called here with whatever [aggregate] is,
    [None] included. *)
Variable key : Type.
Variable aggregate_returns : series -> option key -> bool -> series.

(** [expected_return]. *)
Definition expected_return (returns : series) (aggregate : option key)
           (compounded : bool) : float :=
  let returns := aggregate_returns returns aggregate compounded in
  fsub (fpow (Fin (prod (map (fun r => 1 + r) returns)))
             (fdiv (Fin 1) (Fin (INR (count returns)))))
       (Fin 1).

End WithAggregationMore.

(** [returns != 0] for one column: the positions that hold a non-zero
    value. *)
Definition nonzero_mask (col : series) : list bool :=
  map (fun v => negb (Reqb v 0)) col.

(** The rows of a frame in which every column is non-zero: what
    [returns[returns != 0].dropna()] keeps (a row with a masked entry in
    any column is dropped). *)
Fixpoint kept_rows (columns : list series) : list bool :=
  match columns with
  | [] => []
  | [c] => nonzero_mask c
  | c :: rest =>
      map (fun p => fst p && snd p) (combine (nonzero_mask c) (kept_rows rest))
  end.

(** The entries of a column at the kept rows. *)
Definition select_rows (mask : list bool) (col : series) : series :=
  map fst (filter snd (combine col mask)).

Section WithFrameAggregation.

(** [utils.aggregate_returns] applied to a frame. *)
Variable key : Type.
Variable aggregate_frame : frame -> key -> bool -> frame.

(** [avg_return]: the helper is called only when [aggregate] is given;
    the zero entries are masked, the rows with a masked entry dropped, and
    each column averaged over the rows that remain. *)
Definition avg_return (returns : frame) (aggregate : option key) (compounded : bool)
  : list (string * float) :=
  let returns :=
    match aggregate with
    | Some k => aggregate_frame returns k compounded
    | None => returns
    end in
  let mask := kept_rows (map snd returns) in
  map (fun c => (fst c, mean (select_rows mask (snd c)))) returns.

End WithFrameAggregation.

End Stats.
Export Stats.

(** ** The formulas of the specification *)

Module Spec.

(** Section 4.6: the downside deviation is [sqrt(mean(min(excess, 0)^2))],
    the mean being over the full sample. *)
Definition downside_deviation (excess : series) : float :=
  fsqrt (mean (map (fun e => Rmin e 0 * Rmin e 0) excess)).

(** The sum of [f k] for [k] from 1 to [m]. *)
Fixpoint sigma (f : nat -> float) (m : nat) : float :=
  match m with
  | O => Fin 0
  | S k => fadd (sigma f k) (f (S k))
  end.

(** Section 4.5: the correction factor
    [sqrt(1 + 2 * sum_{k=1}^{n-1} ((n-k)/n) * rho^k)]. *)
Definition correction_factor (n : nat) (rho : float) : float :=
  fsqrt (fadd (Fin 1)
              (fmul (Fin 2)
                    (sigma (fun k => fmul (Fin ((INR n - INR k) / INR n))
                                          (fpow rho (Fin (INR k))))
                           (n - 1)))).

(** Section 4.5: the lag-1 autocorrelation coefficient, the Pearson
    correlation of the column against its own one-period lag. *)
Definition lag1_autocorrelation (col : series) : float :=
  corrcoef (removelast col) (tl col).

(** The power [a ^ b] of a non-negative base with a positive exponent. *)
Definition power_nonneg (a b : R) : R :=
  if Req_dec_T a 0 then 0 else Rpower a b.

(** The count of the observations that satisfy [p]. *)
Fixpoint count_if (p : R -> bool) (s : series) : nat :=
  match s with
  | [] => O
  | x :: t => if p x then S (count_if p t) else count_if p t
  end.

(** What a division by an exact zero gives for the numerator [m]. *)
Definition over_zero (m : float) : float :=
  match m with
  | Fin a => if Rlt_dec 0 a then PInf else if Rlt_dec a 0 then NInf else NaN
  | _ => m
  end.

End Spec.

(** ** Properties *)

(** *** Float arithmetic on finite values *)

(** Decide the comparisons of real numbers that guard a float operation,
    closing the impossible branches by linear arithmetic. *)
Ltac real_cases :=
  repeat match goal with
         | |- context [Rlt_dec ?a ?b] => destruct (Rlt_dec a b); try lra
         | |- context [Req_dec_T ?a ?b] => destruct (Req_dec_T a b); try lra
         end.

Lemma Rltb_true (a b : R) : a < b -> Rltb a b = true.
Proof. intros H. unfold Rltb. destruct (Rlt_dec a b); [reflexivity | contradiction]. Qed.

Lemma Rltb_false (a b : R) : ~ a < b -> Rltb a b = false.
Proof. intros H. unfold Rltb. destruct (Rlt_dec a b); [contradiction | reflexivity]. Qed.

Lemma Reqb_true (a b : R) : a = b -> Reqb a b = true.
Proof. intros H. unfold Reqb. destruct (Req_dec_T a b); [reflexivity | contradiction]. Qed.

Lemma Reqb_false (a b : R) : a <> b -> Reqb a b = false.
Proof. intros H. unfold Reqb. destruct (Req_dec_T a b); [contradiction | reflexivity]. Qed.

Lemma fdiv_fin (a b : R) : b <> 0 -> fdiv (Fin a) (Fin b) = Fin (a / b).
Proof. intros H. unfold fdiv. destruct (Req_dec_T b 0); [contradiction | reflexivity]. Qed.

Lemma fdiv_zero (a : R) : fdiv (Fin a) (Fin 0) = Spec.over_zero (Fin a).
Proof. unfold fdiv, Spec.over_zero, signed. destruct (Req_dec_T 0 0); [reflexivity | congruence]. Qed.

Lemma fdiv_over_zero (m : float) : fdiv m (Fin 0) = Spec.over_zero m.
Proof.
  destruct m as [a| | |]; [apply fdiv_zero | | | reflexivity];
    simpl; real_cases; reflexivity.
Qed.

Lemma fsqrt_fin (a : R) : 0 <= a -> fsqrt (Fin a) = Fin (sqrt a).
Proof. intros H. unfold fsqrt. real_cases. reflexivity. Qed.

Lemma signed_pos (a : R) (i : float) : 0 < a -> signed a i = i.
Proof. intros H. unfold signed. destruct (Rlt_dec 0 a); [reflexivity | contradiction]. Qed.

(** *** Sums, counts and means *)

Lemma sum_cons (a : R) (s : series) : sum (a :: s) = a + sum s.
Proof. reflexivity. Qed.

Lemma sum_map_shift (d : R) (s : series) :
  sum (map (fun r => r - d) s) = sum s - INR (length s) * d.
Proof.
  induction s as [|x s IH]; [simpl; lra |].
  cbn [map]. rewrite !sum_cons, IH.
  change (length (x :: s)) with (S (length s)). rewrite S_INR. lra.
Qed.

Lemma mean_nonempty (s : series) : s <> [] -> mean s = Fin (avg s).
Proof.
  intros H. unfold mean, avg. apply fdiv_fin.
  destruct s as [|x s]; [congruence |].
  unfold count. apply not_0_INR. simpl. lia.
Qed.

Lemma mean_empty : mean [] = NaN.
Proof.
  change (fdiv (Fin 0) (Fin 0) = NaN). rewrite fdiv_zero. simpl.
  destruct (Rlt_dec 0 0); [lra | reflexivity].
Qed.

(** *** Sortino *)

(** The squares of the negative observations add up to the squares of
    [min(e, 0)] over every observation. *)
Lemma sum_sq_negative (e : series) :
  sum (map (fun x => x * x) (negative e)) =
  sum (map (fun x => Rmin x 0 * Rmin x 0) e).
Proof.
  induction e as [|x e IH]; [reflexivity |].
  unfold negative in *. simpl. unfold Rltb at 1.
  destruct (Rlt_dec x 0) as [Hx | Hx]; simpl; rewrite IH.
  - rewrite Rmin_left by lra. reflexivity.
  - rewrite Rmin_right by lra. lra.
Qed.

Lemma downside_deviation_code (e : series) :
  Spec.downside_deviation e =
  fsqrt (fdiv (Fin (sum (map (fun x => x * x) (negative e)))) (Fin (INR (length e)))).
Proof.
  unfold Spec.downside_deviation, mean, count.
  rewrite length_map, sum_sq_negative. reflexivity.
Qed.

(** C1: for every return series and risk-free rate, the downside
    deviation that [sortino] divides by is the square root of the sum of
    the squared strictly negative excess returns over the count [n] of all
    the excess returns, that is [sqrt(mean(min(excess, 0)^2))]; the ratio
    returned is the mean of the excess returns over it, times
    [sqrt(periods)] when [annualize] is set.  (With [smart] set the
    deviation is first multiplied by the autocorrelation penalty.) *)
Theorem sortino_downside_deviation :
  forall (deannualize : R -> Z -> R) (returns : series) (rf : rate)
         (periods : Z) (annualize smart : bool),
    let excess := to_excess_returns deannualize returns rf periods in
    let n := INR (length excess) in
    let downside :=
      fsqrt (fdiv (Fin (sum (map (fun x => x * x) (negative excess)))) (Fin n)) in
    let divisor :=
      if smart then fmul downside (autocorr_penalty_column (clean returns))
      else downside in
    Spec.downside_deviation excess = downside /\
    sortino deannualize returns rf periods annualize smart =
      (if annualize
       then fmul (fdiv (mean excess) divisor) (fsqrt (Fin (IZR periods)))
       else fdiv (mean excess) divisor) /\
    sortino deannualize returns rf periods annualize false =
      (if annualize
       then fmul (fdiv (mean excess) (Spec.downside_deviation excess))
                 (fsqrt (Fin (IZR periods)))
       else fdiv (mean excess) (Spec.downside_deviation excess)).
Proof.
  intros deannualize returns rf periods annualize smart excess n downside divisor.
  split; [apply downside_deviation_code |]. split.
  - unfold sortino. fold excess. reflexivity.
  - rewrite downside_deviation_code. unfold sortino. fold excess. reflexivity.
Qed.

(** *** Autocorrelation penalty *)

Lemma INR_pos_of_le (k : nat) : (1 <= k)%nat -> 0 < INR k.
Proof. intros H. apply lt_0_INR. lia. Qed.

(** A float raised to a positive integer exponent. *)
Lemma fpow_nat (a : R) (k : nat) :
  (1 <= k)%nat -> fpow (Fin a) (Fin (INR k)) = Fin (a ^ k).
Proof.
  intros Hk. pose proof (INR_pos_of_le k Hk) as Hpos. unfold fpow.
  destruct (Req_dec_T (INR k) 0) as [E | _]; [lra |].
  destruct (Req_dec_T a 1) as [-> | _]; [now rewrite pow1 |].
  destruct (Rlt_dec 0 a) as [Ha | Ha]; [now rewrite Rpower_pow |].
  destruct (Req_dec_T a 0) as [-> | Hz].
  - destruct (Rlt_dec 0 (INR k)); [| contradiction].
    rewrite pow_i by lia. reflexivity.
  - unfold is_integer. rewrite Int_part_INR, <- INR_IZR_INZ.
    rewrite Reqb_true by reflexivity. now rewrite <- pow_powerRZ.
Qed.

Lemma fpow_nan_nat (k : nat) : (1 <= k)%nat -> fpow NaN (Fin (INR k)) = NaN.
Proof.
  intros Hk. pose proof (INR_pos_of_le k Hk). unfold fpow.
  destruct (Req_dec_T (INR k) 0); [lra | reflexivity].
Qed.

Lemma sigma_ext (f g : nat -> float) (m : nat) :
  (forall k, (1 <= k <= m)%nat -> f k = g k) -> Spec.sigma f m = Spec.sigma g m.
Proof.
  induction m as [|m IH]; intros H; [reflexivity |].
  simpl. rewrite IH, (H (S m)) by (intros; try apply H; lia). reflexivity.
Qed.

(** [np.sum] over the list comprehension on [range(1, m + 1)] is the sum
    from 1 to [m]. *)
Lemma fsum_range (f : nat -> float) (m : nat) :
  fsum (map f (seq 1 m)) = Spec.sigma f m.
Proof.
  unfold fsum. induction m as [|m IH]; [reflexivity |].
  rewrite seq_S, map_app, fold_left_app, IH. reflexivity.
Qed.

Lemma weight_code_spec (n k : nat) :
  (1 <= k < n)%nat ->
  fdiv (Fin (IZR (Z.of_nat n - Z.of_nat k))) (Fin (INR n)) =
  Fin ((INR n - INR k) / INR n).
Proof.
  intros H. rewrite fdiv_fin by (apply not_0_INR; lia).
  now rewrite minus_IZR, <- !INR_IZR_INZ.
Qed.

(** The loop body of [autocorr_penalty] computes the correction factor of
    the specification at the absolute value of the coefficient. *)
Lemma autocorr_penalty_column_factor (col : series) :
  autocorr_penalty_column col =
  Spec.correction_factor (length col) (fabs (Spec.lag1_autocorrelation col)).
Proof.
  unfold autocorr_penalty_column, Spec.correction_factor,
    Spec.lag1_autocorrelation, count.
  rewrite fsum_range. do 3 f_equal.
  apply sigma_ext. intros k Hk.
  rewrite weight_code_spec by lia. reflexivity.
Qed.

(** C2 (amended): for every column of [n] observations (in particular
    for [n >= 2]), [autocorr_penalty] returns
    [sqrt(1 + 2 * sum_{k=1}^{n-1} ((n-k)/n) * r^k)] where [r] is the
    absolute value of the Pearson correlation coefficient between the
    column and its own one-period lag. *)
Theorem autocorr_penalty_abs_formula :
  forall returns : frame,
    autocorr_penalty returns =
    map (fun c => (fst c,
                   Spec.correction_factor
                     (length (snd c))
                     (fabs (Spec.lag1_autocorrelation (snd c)))))
        returns.
Proof.
  intros returns. unfold autocorr_penalty, clean_frame, clean.
  rewrite map_map. apply map_ext. intros [c col]. cbn [fst snd].
  now rewrite autocorr_penalty_column_factor.
Qed.

Lemma sum_codev_x_y : sum_codev [1; -1; 0] [-1; 0; 1] = -1.
Proof. unfold sum_codev, avg, count. simpl. lra. Qed.

Lemma sum_codev_x_x : sum_codev [1; -1; 0] [1; -1; 0] = 2.
Proof. unfold sum_codev, avg, count. simpl. lra. Qed.

Lemma sum_codev_y_y : sum_codev [-1; 0; 1] [-1; 0; 1] = 2.
Proof. unfold sum_codev, avg, count. simpl. lra. Qed.

(** The lag-1 autocorrelation of the column [1, -1, 0, 1] is [-1/2]. *)
Lemma lag1_autocorrelation_example :
  Spec.lag1_autocorrelation [1; -1; 0; 1] = Fin (- (1 / 2)).
Proof.
  unfold Spec.lag1_autocorrelation, corrcoef, cov.
  cbn [removelast tl combine length Nat.leb].
  rewrite sum_codev_x_y, sum_codev_x_x, sum_codev_y_y.
  replace (INR 3 - 1) with 2 by (simpl; lra).
  rewrite !fdiv_fin by lra.
  replace (2 / 2) with 1 by lra.
  rewrite fsqrt_fin by lra. rewrite sqrt_1.
  rewrite !fdiv_fin by lra.
  unfold fclip.
  destruct (Rlt_dec (-1 / 2 / 1 / 1) (-1)); [lra |].
  destruct (Rlt_dec 1 (-1 / 2 / 1 / 1)); [lra |].
  f_equal. lra.
Qed.

Lemma correction_factor_4 (p : R) :
  0 <= 1 + 2 * (3 / 4 * p + 2 / 4 * (p * p) + 1 / 4 * (p * p * p)) ->
  Spec.correction_factor 4 (Fin p) =
  Fin (sqrt (1 + 2 * (3 / 4 * p + 2 / 4 * (p * p) + 1 / 4 * (p * p * p)))).
Proof.
  intros H. unfold Spec.correction_factor.
  cbn [Nat.sub Spec.sigma].
  rewrite !fpow_nat by lia.
  cbn [fmul fadd].
  rewrite <- fsqrt_fin by exact H.
  do 2 f_equal. simpl. field.
Qed.

(** On the column [1, -1, 0, 1] the code returns [sqrt(33/16)]. *)
Lemma autocorr_penalty_example :
  autocorr_penalty_column [1; -1; 0; 1] = Fin (sqrt (33 / 16)).
Proof.
  rewrite autocorr_penalty_column_factor, lag1_autocorrelation_example.
  cbn [length fabs]. rewrite Rabs_Ropp, Rabs_pos_eq by lra.
  rewrite correction_factor_4 by lra. do 2 f_equal. lra.
Qed.

(** C2 (as stated) fails: on the column [1, -1, 0, 1], whose lag-1
    autocorrelation is [-1/2], the formula of the claim with the signed
    coefficient gives [sqrt(7/16)], and [autocorr_penalty] returns
    [sqrt(33/16)]. *)
Lemma autocorr_penalty_signed_counterexample :
  Spec.lag1_autocorrelation [1; -1; 0; 1] = Fin (- (1 / 2)) /\
  Spec.correction_factor 4 (Spec.lag1_autocorrelation [1; -1; 0; 1]) = Fin (sqrt (7 / 16)) /\
  autocorr_penalty_column [1; -1; 0; 1] = Fin (sqrt (33 / 16)) /\
  autocorr_penalty_column [1; -1; 0; 1] <>
    Spec.correction_factor (length [1; -1; 0; 1])
                           (Spec.lag1_autocorrelation [1; -1; 0; 1]).
Proof.
  assert (Hspec : Spec.correction_factor 4 (Spec.lag1_autocorrelation [1; -1; 0; 1])
                  = Fin (sqrt (7 / 16))).
  { rewrite lag1_autocorrelation_example, correction_factor_4 by lra.
    do 2 f_equal. lra. }
  repeat split.
  - apply lag1_autocorrelation_example.
  - exact Hspec.
  - apply autocorr_penalty_example.
  - cbn [length]. rewrite Hspec, autocorr_penalty_example.
    intros E. injection E as E. apply sqrt_inj in E; lra.
Qed.

(** With fewer than two observations the list comprehension is empty and
    the penalty is [sqrt(1 + 2 * 0)]. *)
Lemma autocorr_penalty_column_short (col : series) :
  (length col < 2)%nat -> autocorr_penalty_column col = Fin 1.
Proof.
  intros H. unfold autocorr_penalty_column, count.
  replace (length col - 1)%nat with 0%nat by lia.
  cbn [seq map fsum fold_left fmul fadd].
  rewrite fsqrt_fin by lra. f_equal.
  replace (1 + 2 * 0) with 1 by lra. apply sqrt_1.
Qed.

Lemma fmul_nan_r (x : float) : fmul x NaN = NaN.
Proof. destruct x; reflexivity. Qed.

(** With exactly two observations each side of the correlation has one
    value, the coefficient is missing, and so is the penalty. *)
Lemma autocorr_penalty_column_two (a b : R) :
  autocorr_penalty_column [a; b] = NaN.
Proof.
  unfold autocorr_penalty_column, count.
  cbn [length Nat.sub seq map removelast tl].
  assert (Hc : corrcoef [a] [b] = NaN) by reflexivity.
  rewrite Hc. cbn [fabs]. rewrite fpow_nan_nat by lia.
  rewrite fmul_nan_r. reflexivity.
Qed.

(** C7 (amended): for every column with fewer than 2 observations,
    [autocorr_penalty] reports 1 for that column: the correlation is
    missing, and the empty sum does not use it. *)
Theorem autocorr_penalty_insufficient_data :
  forall (name : string) (col : series),
    (length col < 2)%nat ->
    autocorr_penalty [(name, col)] = [(name, Fin 1)].
Proof.
  intros name col H. unfold autocorr_penalty, clean_frame, clean.
  cbn [map fst snd]. now rewrite autocorr_penalty_column_short.
Qed.

Lemma autocorr_penalty_insufficient_data_witness :
  (length [1]%R < 2)%nat /\ autocorr_penalty [("a"%string, [1])] = [("a"%string, Fin 1)].
Proof.
  split; [simpl; lia |].
  apply (autocorr_penalty_insufficient_data "a"%string [1]). simpl; lia.
Defined.

(** C7 (as stated) fails: on a column of one observation the correlation
    is missing and [autocorr_penalty] reports 1, which is not a missing
    value. *)
Lemma autocorr_penalty_one_observation_counterexample :
  (length [1]%R < 2)%nat /\
  Spec.lag1_autocorrelation [1] = NaN /\
  autocorr_penalty [("a"%string, [1])] = [("a"%string, Fin 1)] /\
  is_nan (autocorr_penalty_column [1]) = false.
Proof.
  split; [simpl; lia |]. split; [reflexivity |]. split.
  - unfold autocorr_penalty, clean_frame, clean. cbn [map fst snd].
    rewrite autocorr_penalty_column_short by (simpl; lia). reflexivity.
  - rewrite autocorr_penalty_column_short by (simpl; lia). reflexivity.
Qed.

(** *** CAGR *)

Lemma power_nonneg_fpow (a b : R) :
  0 <= a -> 0 < b -> fpow (Fin a) (Fin b) = Fin (Spec.power_nonneg a b).
Proof.
  intros Ha Hb. unfold fpow, Spec.power_nonneg.
  destruct (Req_dec_T b 0) as [E | _]; [lra |].
  destruct (Req_dec_T a 1) as [-> | H1].
  - destruct (Req_dec_T 1 0); [lra |].
    unfold Rpower. now rewrite ln_1, Rmult_0_r, exp_0.
  - destruct (Rlt_dec 0 a) as [Hp | Hp].
    + destruct (Req_dec_T a 0); [lra | reflexivity].
    + destruct (Req_dec_T a 0) as [Hz | Hz]; [| lra].
      destruct (Rlt_dec 0 b); [reflexivity | contradiction].
Qed.

Lemma years_positive (n : nat) (periods : Z) :
  (2 <= n)%nat -> (0 < periods)%Z -> 0 < (INR n - 1) / IZR periods.
Proof.
  intros Hn Hp. apply Rdiv_lt_0_compat.
  - apply le_INR in Hn. simpl in Hn. lra.
  - now apply IZR_lt.
Qed.

(** The value of [cagr] on at least two observations, for a positive
    number of periods per year. *)
Lemma cagr_value (returns : series) (compounded : bool) (periods : Z) :
  (2 <= length returns)%nat -> (0 < periods)%Z ->
  cagr returns compounded periods =
  Fin (Spec.power_nonneg
         (Rabs ((if compounded then total_return returns else sum returns) + 1))
         (1 / ((INR (length returns) - 1) / IZR periods)) - 1).
Proof.
  intros Hn Hp. pose proof (years_positive _ _ Hn Hp) as Hy.
  assert (Hpz : IZR periods <> 0) by (apply IZR_lt in Hp; lra).
  unfold cagr, count.
  rewrite minus_IZR, <- INR_IZR_INZ.
  rewrite (fdiv_fin _ (IZR periods)) by exact Hpz.
  rewrite fdiv_fin by lra.
  cbn [fabs]. rewrite power_nonneg_fpow.
  - reflexivity.
  - apply Rabs_pos.
  - apply Rdiv_lt_0_compat; lra.
Qed.

(** C3: for every return series with at least 2 observations, [cagr]
    with [compounded] set returns [abs(total + 1) ** (1 / years) - 1],
    where [total] is the product of [(1 + r)] minus 1 over the whole
    series and [years = (n - 1) / periods]; the absolute value is taken
    before the power, whatever the sign of [total + 1].  For a positive
    number of periods per year the result is the finite real number
    [|total + 1| ^ (periods / (n - 1)) - 1]. *)
Theorem cagr_compounded_formula :
  forall (returns : series) (periods : Z),
    (2 <= length returns)%nat ->
    let total := prod (map (fun r => 1 + r) returns) - 1 in
    let n := Z.of_nat (length returns) in
    total_return returns = total /\
    cagr returns true periods =
      fsub (fpow (fabs (Fin (total + 1)))
                 (fdiv (Fin 1) (fdiv (Fin (IZR (n - 1))) (Fin (IZR periods)))))
           (Fin 1) /\
    ((0 < periods)%Z ->
     cagr returns true periods =
       Fin (Spec.power_nonneg (Rabs (total + 1))
                              (1 / ((INR (length returns) - 1) / IZR periods)) - 1)).
Proof.
  intros returns periods Hn total n.
  assert (Ht : total_return returns = total).
  { unfold total_return, total. do 2 f_equal.
    apply map_ext. intros r. lra. }
  split; [exact Ht |]. split.
  - unfold cagr, count. rewrite Ht. reflexivity.
  - intros Hp. rewrite (cagr_value returns true periods Hn Hp), Ht. reflexivity.
Qed.

Lemma cagr_compounded_formula_witness :
  (2 <= length [-3; 0]%R)%nat /\ (0 < 1)%Z /\
  cagr [-3; 0] true 1 =
    Fin (Spec.power_nonneg
           (Rabs (prod (map (fun r => 1 + r) [-3; 0]) - 1 + 1))
           (1 / ((INR (length [-3; 0]) - 1) / IZR 1)) - 1).
Proof.
  assert (H1 : (2 <= length [-3; 0]%R)%nat) by (simpl; lia).
  assert (H2 : (0 < 1)%Z) by lia.
  split; [exact H1 |]. split; [exact H2 |].
  exact (proj2 (proj2 (cagr_compounded_formula [-3; 0] 1 H1)) H2).
Defined.

(** A total return of [-3] (so that [total + 1 = -2]) over one year:
    the absolute value makes the result [2 ^ 1 - 1 = 1]. *)
Lemma cagr_negative_total_example :
  total_return [-3; 0] = -3 /\ cagr [-3; 0] true 1 = Fin 1.
Proof.
  assert (Ht : total_return [-3; 0] = -3) by (unfold total_return; simpl; lra).
  split; [exact Ht |].
  rewrite cagr_value by (simpl; lia || lia). rewrite Ht.
  replace (-3 + 1) with (- (2)) by lra. rewrite Rabs_Ropp, Rabs_pos_eq by lra.
  replace (1 / ((INR (length [-3; 0]) - 1) / 1)) with 1 by (simpl; field).
  unfold Spec.power_nonneg. destruct (Req_dec_T 2 0); [lra |].
  rewrite Rpower_1 by lra. f_equal. lra.
Qed.

Lemma total_return_repeat (c : R) (n : nat) :
  total_return (repeat c n) + 1 = (1 + c) ^ n.
Proof.
  unfold total_return.
  induction n as [|n IH]; simpl in *; [lra |].
  replace (prod (map (fun r => r + 1) (repeat c n))) with ((1 + c) ^ n) by lra.
  lra.
Qed.

Lemma power_nonneg_pow (a b : R) (n : nat) :
  0 <= a -> (1 <= n)%nat ->
  Spec.power_nonneg (a ^ n) b = Spec.power_nonneg a (INR n * b).
Proof.
  intros Ha Hn. unfold Spec.power_nonneg.
  destruct (Req_dec_T a 0) as [-> | Hz].
  - rewrite pow_i by lia. destruct (Req_dec_T 0 0); [reflexivity | lra].
  - destruct (Req_dec_T (a ^ n) 0) as [E | _].
    + exfalso. revert E. now apply pow_nonzero.
    + rewrite <- Rpower_pow by lra. apply Rpower_mult.
Qed.

(** The value of [cagr] on a constant series. *)
Lemma cagr_constant_value (c : R) (n : nat) (periods : Z) :
  (2 <= n)%nat -> (0 < periods)%Z ->
  cagr (repeat c n) true periods =
  Fin (Spec.power_nonneg (Rabs (1 + c)) (INR n * IZR periods / (INR n - 1)) - 1).
Proof.
  intros Hn Hp.
  rewrite cagr_value by (rewrite ?repeat_length; assumption).
  rewrite repeat_length, total_return_repeat, <- RPow_abs.
  rewrite power_nonneg_pow by (try apply Rabs_pos; lia).
  do 3 f_equal.
  assert (IZR periods <> 0) by (apply IZR_lt in Hp; lra).
  assert (INR n - 1 <> 0) by (apply le_INR in Hn; simpl in Hn; lra).
  field. split; assumption.
Qed.

(** C4 (amended): for every constant return series (every periodic
    return equal to [c], [n >= 2] observations) and a positive number of
    periods per year, [cagr] with [compounded] set returns
    [abs(1 + c) ^ (n * periods / (n - 1)) - 1], the constant return
    compounded over [n * periods / (n - 1)] periods; for [c = 0] this
    is 0. *)
Theorem cagr_constant_series :
  forall (c : R) (n : nat) (periods : Z),
    (2 <= n)%nat -> (0 < periods)%Z ->
    cagr (repeat c n) true periods =
      Fin (Spec.power_nonneg (Rabs (1 + c)) (INR n * IZR periods / (INR n - 1)) - 1)
    /\ cagr (repeat 0 n) true periods = Fin 0.
Proof.
  intros c n periods Hn Hp. split; [now apply cagr_constant_value |].
  rewrite cagr_constant_value by assumption. f_equal.
  rewrite Rplus_0_r, Rabs_R1. unfold Spec.power_nonneg.
  destruct (Req_dec_T 1 0); [lra |].
  unfold Rpower. rewrite ln_1, Rmult_0_r, exp_0. lra.
Qed.

Lemma cagr_constant_series_witness :
  (2 <= 2)%nat /\ (0 < 252)%Z /\
  cagr (repeat 1 2) true 252 =
    Fin (Spec.power_nonneg (Rabs (1 + 1)) (INR 2 * IZR 252 / (INR 2 - 1)) - 1).
Proof.
  split; [lia |]. split; [lia |].
  apply (cagr_constant_series 1 2 252); lia.
Defined.

(** C4 (as stated) fails: on the constant series [1, 1] (a return of
    100% in each of two periods) with the default 252 periods per year,
    [cagr] returns [2 ^ 504 - 1], which is not within 1 of the constant
    return 1. *)
Lemma cagr_constant_counterexample :
  cagr (repeat 1 2) true 252 = Fin (2 ^ 504 - 1) /\
  ~ fapprox 1 (cagr (repeat 1 2) true 252) 1.
Proof.
  assert (E : cagr (repeat 1 2) true 252 = Fin (2 ^ 504 - 1)).
  { rewrite cagr_constant_value by lia. do 2 f_equal.
    replace (1 + 1) with 2 by lra. rewrite Rabs_pos_eq by lra.
    unfold Spec.power_nonneg. destruct (Req_dec_T 2 0); [lra |].
    replace (INR 2 * 252 / (INR 2 - 1)) with (INR 504).
    - apply Rpower_pow. lra.
    - rewrite (INR_IZR_INZ 504). simpl. field. }
  split; [exact E |].
  rewrite E. unfold fapprox.
  assert (H : 2 ^ 2 <= 2 ^ 504) by (apply Rle_pow; [lra | lia]).
  simpl in H. rewrite Rabs_pos_eq; lra.
Qed.

(** *** Ratios over an exact zero *)

Lemma over_zero_scale (m : float) (s : R) :
  0 < s -> fmul (Spec.over_zero m) (Fin s) = Spec.over_zero m.
Proof.
  intros Hs. destruct m as [a| | |]; cbn [Spec.over_zero fmul].
  - destruct (Rlt_dec 0 a); [cbn [fmul]; now rewrite signed_pos |].
    destruct (Rlt_dec a 0); [cbn [fmul]; now rewrite signed_pos | reflexivity].
  - now rewrite signed_pos.
  - now rewrite signed_pos.
  - reflexivity.
Qed.

Lemma sqrt_periods (periods : Z) :
  (0 < periods)%Z ->
  fsqrt (Fin (IZR periods)) = Fin (sqrt (IZR periods)) /\ 0 < sqrt (IZR periods).
Proof.
  intros Hp. apply IZR_lt in Hp. split.
  - apply fsqrt_fin. lra.
  - now apply sqrt_lt_R0.
Qed.

(** [sharpe] without the penalty when the deviation of the excess
    returns is exactly zero. *)
Lemma sharpe_zero_std (deannualize : R -> Z -> R) (returns : series) (rf : rate)
      (periods : Z) (annualize : bool) :
  (annualize = true -> (0 < periods)%Z) ->
  std (to_excess_returns deannualize returns rf periods) = Fin 0 ->
  sharpe deannualize returns rf periods annualize false =
  Spec.over_zero (mean (to_excess_returns deannualize returns rf periods)).
Proof.
  intros Hp Hs. unfold sharpe. rewrite Hs, fdiv_over_zero.
  destruct annualize; [| reflexivity].
  destruct (sqrt_periods periods (Hp eq_refl)) as [-> Hpos].
  now apply over_zero_scale.
Qed.

(** [omega] when no excess return is negative enough to make the sum of
    the negative ones differ from zero. *)
Lemma omega_zero_denominator (deannualize : R -> Z -> R) (returns : series)
      (required_returns : rate) (periods : Z) :
  sum (negative (to_excess_returns deannualize returns required_returns periods)) = 0 ->
  omega deannualize returns required_returns periods =
  Spec.over_zero
    (Fin (sum (positive (to_excess_returns deannualize returns required_returns periods)))).
Proof.
  intros H. unfold omega. rewrite H. cbn [fabs]. rewrite Rabs_R0.
  apply fdiv_zero.
Qed.

(** [calmar] when the maximum drawdown is exactly zero. *)
Lemma calmar_zero_drawdown (dd : series -> series) (returns : series) :
  max_drawdown dd returns = Fin 0 ->
  calmar dd returns = Spec.over_zero (cagr returns true 252).
Proof.
  intros H. unfold calmar. rewrite H. cbn [fabs]. rewrite Rabs_R0.
  apply fdiv_over_zero.
Qed.

Lemma deannualize_compound_zero (periods : Z) : deannualize_compound 0 periods = 0.
Proof.
  unfold deannualize_compound, Rpower.
  rewrite Rplus_0_r, ln_1, Rmult_0_r, exp_0. lra.
Qed.

Lemma excess_of_zero_rate (returns : series) (periods : Z) :
  to_excess_returns deannualize_compound returns (Scalar 0) periods = returns.
Proof.
  unfold to_excess_returns. rewrite deannualize_compound_zero.
  induction returns as [|r t IH]; [reflexivity |].
  cbn [map]. rewrite IH. f_equal. lra.
Qed.

Lemma std_ones : std [1; 1] = Fin 0.
Proof.
  unfold std, sum_sq_dev, avg, count. cbn [length Nat.leb map sum fold_right].
  f_equal. replace (INR 2) with 2 by (simpl; lra).
  replace (((1 - (1 + (1 + 0)) / 2) * (1 - (1 + (1 + 0)) / 2) +
            ((1 - (1 + (1 + 0)) / 2) * (1 - (1 + (1 + 0)) / 2) + 0)) / (2 - 1))
    with 0 by field.
  apply sqrt_0.
Qed.

Lemma mean_ones : mean [1; 1] = Fin 1.
Proof.
  rewrite mean_nonempty by discriminate. f_equal.
  unfold avg, count. simpl. field.
Qed.

Lemma drawdown_ones : smin (to_drawdown_series [1; 1]) = Fin 0.
Proof.
  unfold to_drawdown_series. cbn [cumulative_curve drawdown_from smin fold_left].
  replace (1 * (1 + 1) - 1) with 1 by lra.
  replace (1 * (1 + 1) * (1 + 1) - 1) with 3 by lra.
  rewrite (Rmax_right 1 3) by lra.
  destruct (Rlt_dec 0 1); [| lra]. destruct (Rlt_dec 0 3); [| lra].
  f_equal. replace (1 / 1 - 1) with 0 by lra. replace (3 / 3 - 1) with 0 by lra.
  apply Rmin_left. lra.
Qed.

Lemma cagr_ones : cagr [1; 1] true 252 = Fin (2 ^ 504 - 1) /\ 0 < 2 ^ 504 - 1.
Proof.
  split.
  - change [1; 1] with (repeat 1 2).
    rewrite cagr_constant_value by lia. do 2 f_equal.
    replace (1 + 1) with 2 by lra. rewrite Rabs_pos_eq by lra.
    unfold Spec.power_nonneg. destruct (Req_dec_T 2 0); [lra |].
    replace (INR 2 * 252 / (INR 2 - 1)) with (INR 504).
    + apply Rpower_pow. lra.
    + rewrite (INR_IZR_INZ 504). simpl. field.
  - assert (H : 2 ^ 2 <= 2 ^ 504) by (apply Rle_pow; [lra | lia]).
    simpl in H. lra.
Qed.

Lemma over_zero_positive (a : R) : 0 < a -> Spec.over_zero (Fin a) = PInf.
Proof. intros H. cbn. real_cases. reflexivity. Qed.

(** [sharpe] with the penalty when the deviation of the excess returns
    is exactly zero: the penalised deviation is zero again when the penalty
    is a finite number, and missing otherwise. *)
Lemma sharpe_zero_std_smart (deannualize : R -> Z -> R) (returns : series) (rf : rate)
      (periods : Z) (annualize : bool) :
  (annualize = true -> (0 < periods)%Z) ->
  std (to_excess_returns deannualize returns rf periods) = Fin 0 ->
  sharpe deannualize returns rf periods annualize true =
  match autocorr_penalty_column (clean returns) with
  | Fin _ => Spec.over_zero (mean (to_excess_returns deannualize returns rf periods))
  | _ => NaN
  end.
Proof.
  intros Hp Hs.
  rewrite <- (sharpe_zero_std deannualize returns rf periods annualize Hp Hs).
  unfold sharpe. rewrite Hs.
  set (m := mean (to_excess_returns deannualize returns rf periods)).
  destruct (autocorr_penalty_column (clean returns)) as [p| | |]; cbn [fmul].
  - now rewrite Rmult_0_l.
  - unfold signed. real_cases.
    destruct m, annualize; reflexivity.
  - unfold signed. real_cases.
    destruct m, annualize; reflexivity.
  - destruct m, annualize; reflexivity.
Qed.

(** C6 (amended): the ratio functions divide without a guard.  When the
    denominator is exactly zero (zero standard deviation of the excess
    returns for [sharpe], zero sum of the negative excess returns for
    [omega], zero maximum drawdown for [calmar]) the result of [omega], of
    [calmar] and of [sharpe] with [smart] unset is the numerator over zero:
    plus infinity for a positive numerator, minus infinity for a negative
    one, and a missing value only when the numerator is zero or missing
    too.  With [smart] set, [sharpe] returns that same value when the
    autocorrelation penalty is a finite number and a missing value when the
    penalty is missing.  For [sharpe] with [annualize] set this holds for
    [periods > 0]. *)
Theorem zero_denominator_ratio :
  forall (deannualize : R -> Z -> R) (dd : series -> series)
         (returns : series) (rf : rate) (periods : Z) (annualize : bool),
    (annualize = true -> (0 < periods)%Z) ->
    let excess := to_excess_returns deannualize returns rf periods in
    (forall a : R,
        Spec.over_zero (Fin a) =
        if Rlt_dec 0 a then PInf else if Rlt_dec a 0 then NInf else NaN) /\
    (std excess = Fin 0 ->
     sharpe deannualize returns rf periods annualize false =
       Spec.over_zero (mean excess) /\
     sharpe deannualize returns rf periods annualize true =
       match autocorr_penalty_column (clean returns) with
       | Fin _ => Spec.over_zero (mean excess)
       | _ => NaN
       end) /\
    (sum (negative excess) = 0 ->
     omega deannualize returns rf periods =
       Spec.over_zero (Fin (sum (positive excess)))) /\
    (max_drawdown dd returns = Fin 0 ->
     calmar dd returns = Spec.over_zero (cagr returns true 252)).
Proof.
  intros deannualize dd returns rf periods annualize Hp excess.
  split; [reflexivity |]. split; [| split].
  - intros Hs. split.
    + now apply sharpe_zero_std.
    + now apply sharpe_zero_std_smart.
  - apply omega_zero_denominator.
  - apply calmar_zero_drawdown.
Qed.

Lemma zero_denominator_ratio_witness :
  (true = true -> (0 < 252)%Z) /\
  std (to_excess_returns deannualize_compound [1; 1] (Scalar 0) 252) = Fin 0 /\
  sum (negative (to_excess_returns deannualize_compound [1; 1] (Scalar 0) 252)) = 0 /\
  max_drawdown to_drawdown_series [1; 1] = Fin 0 /\
  sharpe deannualize_compound [1; 1] (Scalar 0) 252 true false =
    Spec.over_zero (mean (to_excess_returns deannualize_compound [1; 1] (Scalar 0) 252)) /\
  sharpe deannualize_compound [1; 1] (Scalar 0) 252 true true = NaN /\
  omega deannualize_compound [1; 1] (Scalar 0) 252 =
    Spec.over_zero
      (Fin (sum (positive (to_excess_returns deannualize_compound [1; 1] (Scalar 0) 252)))) /\
  calmar to_drawdown_series [1; 1] = Spec.over_zero (cagr [1; 1] true 252).
Proof.
  assert (Hp : true = true -> (0 < 252)%Z) by (intros _; lia).
  assert (Hs : std (to_excess_returns deannualize_compound [1; 1] (Scalar 0) 252) = Fin 0)
    by (rewrite excess_of_zero_rate; apply std_ones).
  assert (Hn : sum (negative (to_excess_returns deannualize_compound [1; 1] (Scalar 0) 252)) = 0).
  { rewrite excess_of_zero_rate. unfold negative. cbn [filter].
    rewrite Rltb_false by lra. reflexivity. }
  assert (Hd : max_drawdown to_drawdown_series [1; 1] = Fin 0) by apply drawdown_ones.
  destruct (zero_denominator_ratio deannualize_compound to_drawdown_series
              [1; 1] (Scalar 0) 252 true Hp) as (_ & H1 & H2 & H3).
  destruct (H1 Hs) as [H1a H1b].
  unfold clean in H1b. rewrite autocorr_penalty_column_two in H1b.
  repeat split; auto.
Defined.

(** C6 (as stated) fails: on the constant series [1, 1] with a zero
    risk-free rate the excess returns have mean 1 and standard deviation
    exactly 0, and [sharpe] (with every default) returns plus infinity,
    not a missing value. *)
Lemma sharpe_zero_std_counterexample :
  std (to_excess_returns deannualize_compound [1; 1] (Scalar 0) 252) = Fin 0 /\
  mean (to_excess_returns deannualize_compound [1; 1] (Scalar 0) 252) = Fin 1 /\
  sharpe deannualize_compound [1; 1] (Scalar 0) 252 true false = PInf /\
  is_nan (sharpe deannualize_compound [1; 1] (Scalar 0) 252 true false) = false.
Proof.
  assert (Hs : std (to_excess_returns deannualize_compound [1; 1] (Scalar 0) 252) = Fin 0)
    by (rewrite excess_of_zero_rate; apply std_ones).
  assert (Hv : sharpe deannualize_compound [1; 1] (Scalar 0) 252 true false = PInf).
  { rewrite sharpe_zero_std by (intros; lia || exact Hs).
    rewrite excess_of_zero_rate, mean_ones. apply over_zero_positive. lra. }
  repeat split.
  - exact Hs.
  - rewrite excess_of_zero_rate. apply mean_ones.
  - exact Hv.
  - now rewrite Hv.
Qed.

(** *** Rolling statistics *)

Lemma nth_error_combine {A B : Type} (a : list A) (b : list B) (i : nat) (x : A) (y : B) :
  nth_error a i = Some x -> nth_error b i = Some y ->
  nth_error (combine a b) i = Some (x, y).
Proof.
  revert b i. induction a as [|a0 a IH]; intros [|b0 b] [|i] Ha Hb;
    try discriminate; cbn in *.
  - now injection Ha as ->; injection Hb as ->.
  - now apply IH.
Qed.

(** A rolling statistic with a window of [w >= 0]: one value per
    position, missing before position [w - 1], and at a later position the
    statistic of the [w] observations that end there. *)
Lemma rolling_nth (w : nat) (stat : series -> float) (s : series) :
  exists l,
    rolling (Z.of_nat w) stat s = Returned l /\
    length l = length s /\
    (forall i, (S i < w)%nat -> (i < length s)%nat -> nth_error l i = Some NaN) /\
    (forall i, (w <= S i)%nat -> (i < length s)%nat ->
               nth_error l i = Some (stat (window_at w s i))).
Proof.
  unfold rolling. destruct (Z.ltb_spec (Z.of_nat w) 0) as [H | _]; [lia |].
  rewrite Nat2Z.id. eexists. split; [reflexivity |].
  split; [now rewrite length_map, length_seq |].
  split; intros i Hi Hlen; rewrite nth_error_map, nth_error_seq;
    (destruct (Nat.ltb_spec i (length s)); [| lia]); cbn [option_map Nat.add].
  - destruct (Nat.ltb_spec (S i) w); [reflexivity | lia].
  - destruct (Nat.ltb_spec (S i) w); [lia | reflexivity].
Qed.

Lemma window_at_first (w : nat) (s : series) :
  (1 <= w)%nat -> window_at w s (w - 1) = firstn w s.
Proof.
  intros H. unfold window_at.
  replace (S (w - 1) - w)%nat with 0%nat by lia. reflexivity.
Qed.

(** The first window of [rolling_volatility] is [volatility] of the first
    [w] observations; the positions before it are missing. *)
Lemma rolling_volatility_first_window (returns : series) (w : nat) (periods : Z) :
  (1 <= w <= length returns)%nat ->
  exists l,
    rolling_volatility returns (Z.of_nat w) periods = Returned l /\
    length l = length returns /\
    (forall i, (i < w - 1)%nat -> nth_error l i = Some NaN) /\
    option_map Returned (nth_error l (w - 1)) =
      Some (volatility (firstn w returns) periods true).
Proof.
  intros Hw. unfold rolling_volatility.
  destruct (rolling_nth w std returns) as (l & -> & Hlen & Hnan & Hval).
  cbn [bind]. eexists. split; [reflexivity |].
  split; [now rewrite length_map |]. split.
  - intros i Hi. rewrite nth_error_map, Hnan by lia. reflexivity.
  - rewrite nth_error_map, Hval by lia.
    rewrite window_at_first by lia. reflexivity.
Qed.

Lemma avg_map_shift (d : R) (s : series) :
  s <> [] -> avg (map (fun r => r - d) s) = avg s - d.
Proof.
  intros H. unfold avg, count. rewrite length_map, sum_map_shift.
  assert (INR (length s) <> 0).
  { apply not_0_INR. destruct s; [congruence | simpl; lia]. }
  field. assumption.
Qed.

(** The sample standard deviation does not change when a constant is
    subtracted from every observation. *)
Lemma std_map_shift (d : R) (s : series) :
  std (map (fun r => r - d) s) = std s.
Proof.
  unfold std, count. rewrite length_map.
  destruct (length s <=? 1)%nat eqn:E; [reflexivity |].
  do 3 f_equal. unfold sum_sq_dev. rewrite map_map.
  assert (Hs : s <> []) by (destruct s; [discriminate | congruence]).
  rewrite avg_map_shift by exact Hs.
  f_equal. apply map_ext. intros r. ring.
Qed.

(** With a scalar risk-free rate the first window of [rolling_sharpe] is
    [sharpe] (without penalty) of the first [w] observations; the
    positions before it are missing. *)
Lemma rolling_sharpe_scalar_first_window (deannualize : R -> Z -> R)
      (returns : series) (rf : R) (w : nat) (annualize : bool) (periods : Z) :
  (1 <= w <= length returns)%nat ->
  exists l,
    rolling_sharpe deannualize returns (Scalar rf) (Z.of_nat w) annualize periods
      = Returned l /\
    (forall i, (i < w - 1)%nat -> nth_error l i = Some NaN) /\
    nth_error l (w - 1) =
      Some (sharpe deannualize (firstn w returns) (Scalar rf) periods annualize false).
Proof.
  intros Hw. unfold rolling_sharpe, sharpe.
  cbn [to_excess_returns].
  set (d := deannualize rf periods).
  set (excess := map (fun r => r - d) returns).
  assert (Hle : length excess = length returns) by (unfold excess; now rewrite length_map).
  destruct (rolling_nth w mean excess) as (m & -> & Hml & Hmn & Hmv).
  destruct (rolling_nth w std returns) as (s & -> & Hsl & Hsn & Hsv).
  cbn [bind].
  assert (Hnan : forall i, (i < w - 1)%nat -> nth_error (div_series m s) i = Some NaN).
  { intros i Hi. unfold div_series.
    rewrite nth_error_map, (nth_error_combine m s i NaN NaN); try reflexivity.
    - apply Hmn; lia.
    - apply Hsn; lia. }
  assert (Hval : nth_error (div_series m s) (w - 1) =
                 Some (fdiv (mean (map (fun r => r - d) (firstn w returns)))
                            (std (map (fun r => r - d) (firstn w returns))))).
  { unfold div_series.
    rewrite nth_error_map,
      (nth_error_combine m s (w - 1) (mean (window_at w excess (w - 1)))
                         (std (window_at w returns (w - 1)))).
    - cbn [option_map fst snd]. rewrite !window_at_first by lia.
      unfold excess. now rewrite firstn_map, std_map_shift.
    - apply Hmv; lia.
    - apply Hsv; lia. }
  destruct annualize; eexists; (split; [reflexivity |]); split.
  - intros i Hi. now rewrite nth_error_map, Hnan.
  - now rewrite nth_error_map, Hval.
  - exact Hnan.
  - exact Hval.
Qed.

Lemma deannualize_compound_one_period (rf : R) :
  0 < 1 + rf -> deannualize_compound rf 1 = rf.
Proof.
  intros H. unfold deannualize_compound.
  replace (1 / 1) with 1 by lra. rewrite Rpower_1 by exact H. lra.
Qed.

Lemma std_one_two : std [1; 2] = Fin (sqrt (1 / 2)).
Proof.
  unfold std, sum_sq_dev, avg, count. cbn [length Nat.leb map sum fold_right].
  do 2 f_equal. replace (INR 2) with 2 by (simpl; lra). field.
Qed.

(** C5: a time-varying risk-free rate.  On the returns [1, 2] with the
    periodic rates [0, 1] (one period per year, window 2, no
    annualisation) the excess returns are [1, 1]: [rolling_sharpe] divides
    their mean by the deviation of the raw returns and gives
    [1 / sqrt(1/2)] at index 1, while [sharpe] of the same two observations
    divides by the deviation of the excess returns, which is zero, and
    gives plus infinity. *)
Theorem rolling_sharpe_periodic_rate_divergence :
  to_excess_returns deannualize_compound [1; 2] (Periodic [0; 1]) 1 = [1; 1] /\
  rolling_sharpe deannualize_compound [1; 2] (Periodic [0; 1]) 2 false 1
    = Returned [NaN; Fin (1 / sqrt (1 / 2))] /\
  sharpe deannualize_compound (firstn 2 [1; 2]) (Periodic [0; 1]) 1 false false = PInf.
Proof.
  assert (He : to_excess_returns deannualize_compound [1; 2] (Periodic [0; 1]) 1 = [1; 1]).
  { unfold to_excess_returns. cbn [combine map fst snd].
    rewrite !deannualize_compound_one_period by lra.
    repeat f_equal; lra. }
  split; [exact He |]. split.
  - unfold rolling_sharpe. rewrite He.
    unfold rolling. change (2 <? 0)%Z with false. change (Z.to_nat 2) with 2%nat.
    cbn [length seq map Nat.ltb Nat.leb bind].
    unfold window_at. cbn [Nat.sub skipn firstn].
    unfold div_series. cbn [combine map fst snd fdiv].
    rewrite mean_ones, std_one_two.
    assert (0 < sqrt (1 / 2)) by (apply sqrt_lt_R0; lra).
    rewrite fdiv_fin by lra. reflexivity.
  - cbn [firstn]. unfold sharpe. rewrite He, std_ones, mean_ones.
    rewrite fdiv_zero. apply over_zero_positive. lra.
Qed.

(** *** Parameters out of range *)

Lemma volatility_negative_periods (returns : series) (periods : Z) :
  (periods < 0)%Z -> volatility returns periods true = Returned NaN.
Proof.
  intros H. apply IZR_lt in H. unfold volatility, fsqrt.
  destruct (Rlt_dec (IZR periods) 0); [| lra].
  destruct (std returns); reflexivity.
Qed.

Lemma volatility_zero_periods (returns : series) :
  (2 <= length returns)%nat -> volatility returns 0 true = Returned (Fin 0).
Proof.
  intros H. unfold volatility, std, count.
  destruct (Nat.leb_spec (length returns) 1); [lia |].
  rewrite fsqrt_fin by lra. rewrite sqrt_0. cbn [fmul]. now rewrite Rmult_0_r.
Qed.

Lemma norm_ppf_outside (ndtri : R -> R) (q : R) (loc scale : float) :
  q < 0 \/ 1 < q -> norm_ppf ndtri q loc scale = NaN.
Proof.
  intros H. unfold norm_ppf.
  destruct (negb _); [reflexivity |].
  assert (E1 : Rltb 0 q && Rltb q 1 = false).
  { destruct H; [rewrite (Rltb_false 0 q) by lra | rewrite (Rltb_false q 1) by lra];
      [reflexivity | apply andb_false_r]. }
  rewrite E1, !Reqb_false by lra. reflexivity.
Qed.

Lemma value_at_risk_outside (ndtri : R -> R) (name : string) (col : series)
      (sigma confidence : R) :
  confidence < 0 \/ 1 < confidence ->
  value_at_risk ndtri [(name, col)] sigma confidence = Returned [(name, NaN)].
Proof.
  intros H. unfold value_at_risk, clean_frame, clean. cbn [map fst snd].
  rewrite norm_ppf_outside by (destruct H; [right | left]; lra). reflexivity.
Qed.

Lemma value_at_risk_outside_frame (ndtri : R -> R) (returns : frame)
      (sigma confidence : R) :
  confidence < 0 \/ 1 < confidence ->
  value_at_risk ndtri returns sigma confidence =
  Returned (map (fun c => (fst c, NaN)) returns).
Proof.
  intros H. unfold value_at_risk, clean_frame, clean. f_equal.
  rewrite map_map. apply map_ext. intros c. cbn [fst snd].
  rewrite norm_ppf_outside by (destruct H; [right | left]; lra). reflexivity.
Qed.

(** C8 (amended): [volatility] and [value_at_risk] do not validate their
    parameters and do not reject a call with an invalid one.  For every
    [periods], [volatility] (annualised) returns the deviation times
    [sqrt(periods)] under the floating-point rules: a missing value for a
    negative [periods], and 0 for [periods = 0] on at least two
    observations.  For a [confidence] outside the closed interval from 0
    to 1, [value_at_risk] returns a missing value for every column. *)
Theorem invalid_parameters_not_rejected :
  (forall returns periods,
      volatility returns periods true =
      Returned (fmul (std returns) (fsqrt (Fin (IZR periods))))) /\
  (forall returns periods,
      (periods < 0)%Z -> volatility returns periods true = Returned NaN) /\
  (forall returns,
      (2 <= length returns)%nat -> volatility returns 0 true = Returned (Fin 0)) /\
  (forall ndtri returns sigma confidence,
      confidence < 0 \/ 1 < confidence ->
      value_at_risk ndtri returns sigma confidence =
      Returned (map (fun c => (fst c, NaN)) returns)).
Proof.
  split; [reflexivity |]. split; [apply volatility_negative_periods |].
  split; [apply volatility_zero_periods |].
  intros. now apply value_at_risk_outside_frame.
Qed.

Lemma invalid_parameters_not_rejected_witness :
  ((-1) < 0)%Z /\ (2 <= length [1; 2]%R)%nat /\ (2 < 0 \/ 1 < 2) /\
  volatility [1; 2] (-1) true = Returned NaN /\
  volatility [1; 2] 0 true = Returned (Fin 0) /\
  value_at_risk (fun q => q) [("a"%string, [1; 2])] 1 2 = Returned [("a"%string, NaN)].
Proof.
  destruct invalid_parameters_not_rejected as (_ & Hneg & Hzero & Hvar).
  assert (H1 : ((-1) < 0)%Z) by lia.
  assert (H2 : (2 <= length [1; 2]%R)%nat) by (simpl; lia).
  assert (H3 : 2 < 0 \/ 1 < 2) by (right; lra).
  split; [exact H1 |]. split; [exact H2 |]. split; [exact H3 |].
  split; [exact (Hneg [1; 2] (-1)%Z H1) |].
  split; [exact (Hzero [1; 2] H2) |].
  exact (Hvar (fun q => q) [("a"%string, [1; 2])] 1 2 H3).
Defined.

(** C8 (as stated) fails: [volatility] called with [periods = 0] on the
    series [1, 2] is not rejected; it returns 0.  With [periods = -1] it
    returns a missing value. *)
Lemma volatility_invalid_periods_counterexample :
  volatility [1; 2] 0 true = Returned (Fin 0) /\
  volatility [1; 2] (-1) true = Returned NaN /\
  ~ (exists msg, volatility [1; 2] 0 true = Raised msg).
Proof.
  assert (H : volatility [1; 2] 0 true = Returned (Fin 0))
    by (apply volatility_zero_periods; simpl; lia).
  split; [exact H |]. split.
  - apply volatility_negative_periods. lia.
  - intros [msg E]. rewrite H in E. discriminate.
Qed.

(** *** A series against itself *)

Lemma combine_self_fst (x : series) : map fst (combine x x) = x.
Proof. induction x as [|a x IH]; [reflexivity | cbn; now rewrite IH]. Qed.

Lemma combine_self_snd (x : series) : map snd (combine x x) = x.
Proof. induction x as [|a x IH]; [reflexivity | cbn; now rewrite IH]. Qed.

Lemma combine_self_length (x : series) : length (combine x x) = length x.
Proof. rewrite length_combine. apply Nat.min_id. Qed.

Lemma sum_codev_self (x : series) : sum_codev x x = sum_sq_dev x.
Proof.
  unfold sum_codev, sum_sq_dev. rewrite combine_self_fst, combine_self_snd.
  generalize (avg x) as m. intros m.
  induction x as [|a x IH]; [reflexivity |]. cbn [combine map sum fold_right fst snd].
  f_equal. exact IH.
Qed.

Lemma sum_all_equal (c m : R) (l : series) :
  (forall v, In v l -> v = c) ->
  sum l = INR (length l) * c /\
  sum (map (fun v => (v - m) * (v - m)) l) = INR (length l) * ((c - m) * (c - m)).
Proof.
  induction l as [|a l IH]; intros H.
  - simpl. split; lra.
  - destruct IH as [IH1 IH2]; [intros v Hv; apply H; now right |].
    rewrite (H a) by now left.
    change (length (c :: l)) with (S (length l)). rewrite S_INR.
    cbn [map]. rewrite !sum_cons, IH1, IH2. split; lra.
Qed.

Lemma sum_sq_dev_all_equal (c : R) (l : series) :
  (forall v, In v l -> v = c) -> sum_sq_dev l = 0.
Proof.
  intros H. unfold sum_sq_dev.
  destruct (sum_all_equal c (avg l) l H) as [H1 H2]. rewrite H2.
  destruct l as [|a l]; [simpl; lra |].
  unfold avg, count. rewrite H1.
  assert (INR (length (a :: l)) <> 0) by (apply not_0_INR; simpl; lia).
  field. assumption.
Qed.

(** A positive sum of squared deviations needs two observations that
    differ. *)
Lemma nondegenerate_length (x : series) : 0 < sum_sq_dev x -> (2 <= length x)%nat.
Proof.
  intros H. destruct x as [|a [|b x]]; [| | simpl; lia]; exfalso.
  - unfold sum_sq_dev in H. simpl in H. lra.
  - rewrite (sum_sq_dev_all_equal a [a]) in H; [lra |].
    intros v [<- | []]. reflexivity.
Qed.

Lemma nondegenerate_not_constant (x0 : R) (xt : series) :
  0 < sum_sq_dev (x0 :: xt) -> forallb (fun v => Reqb v x0) xt = false.
Proof.
  intros H. destruct (forallb _ xt) eqn:E; [exfalso | reflexivity].
  rewrite forallb_forall in E.
  rewrite (sum_sq_dev_all_equal x0 (x0 :: xt)) in H; [lra |].
  intros v [<- | Hv]; [reflexivity |].
  specialize (E v Hv). unfold Reqb in E.
  destruct (Req_dec_T v x0); [assumption | discriminate].
Qed.

Lemma cov_self (x : series) :
  0 < sum_sq_dev x ->
  cov x x = Fin (sum_sq_dev x / (INR (length x) - 1)) /\
  0 < sum_sq_dev x / (INR (length x) - 1).
Proof.
  intros H. pose proof (nondegenerate_length x H) as Hn.
  assert (Hn1 : 0 < INR (length x) - 1) by (apply le_INR in Hn; simpl in Hn; lra).
  split.
  - unfold cov. rewrite combine_self_length.
    destruct (Nat.leb_spec (length x) 1); [lia |].
    rewrite sum_codev_self. apply fdiv_fin. lra.
  - now apply Rdiv_lt_0_compat.
Qed.

Lemma linregress_rvalue_self (x : series) :
  0 < sum_sq_dev x -> linregress_rvalue x x = Returned (Fin 1).
Proof.
  intros H. pose proof (nondegenerate_length x H) as Hn.
  destruct x as [|x0 xt]; [simpl in Hn; lia |].
  unfold linregress_rvalue.
  rewrite (nondegenerate_not_constant x0 xt H). cbn [andb].
  rewrite Nat.eqb_refl. cbn [negb]. rewrite sum_codev_self.
  set (n := INR (length (x0 :: xt))).
  assert (Hpos : 0 < n) by (unfold n; apply lt_0_INR; simpl; lia).
  assert (Hv : 0 < sum_sq_dev (x0 :: xt) / n) by now apply Rdiv_lt_0_compat.
  rewrite Reqb_false by lra. cbn [orb].
  rewrite fsqrt_fin by nra. rewrite sqrt_square by lra.
  rewrite fdiv_fin by lra. unfold fclip.
  replace (sum_sq_dev (x0 :: xt) / n / (sum_sq_dev (x0 :: xt) / n)) with 1
    by (field; split; lra).
  destruct (Rlt_dec 1 (-1)); [lra |]. destruct (Rlt_dec 1 1); [lra | reflexivity].
Qed.

Lemma fpow_one (y : float) : fpow (Fin 1) y = Fin 1.
Proof.
  unfold fpow. destruct y as [b| | |]; rewrite ?Rabs_R1; real_cases; reflexivity.
Qed.

Lemma sum_sq_dev_one_two : sum_sq_dev [1; 2] = 1 / 2.
Proof. unfold sum_sq_dev, avg, count. simpl. field. Qed.

(** [beta] of one asset column against one benchmark column with another
    label. *)
Lemma beta_distinct_labels (name bname : string) (x b : series) :
  name <> bname ->
  beta [(name, x)] [(bname, b)] = Returned [(name, fdiv (cov x b) (cov b b))].
Proof.
  intros H. apply String.eqb_neq in H.
  unfold beta, label_count. cbn [app existsb map filter fst snd last].
  rewrite String.eqb_refl, H. reflexivity.
Qed.

(** [beta] of one asset column against a benchmark column with the same
    label. *)
Lemma beta_same_label (name : string) (x b : series) :
  beta [(name, x)] [(name, b)] =
  Raised "cannot reindex on an axis with duplicate labels".
Proof.
  unfold beta, label_count. cbn [app existsb map filter fst snd last].
  rewrite String.eqb_refl. reflexivity.
Qed.

Lemma alpha_distinct_labels (name bname : string) (x b : series) (periods : Z) :
  name <> bname ->
  alpha [(name, x)] [(bname, b)] periods =
  Returned [(name, fmul (fsub (mean x) (fmul (fdiv (cov x b) (cov b b)) (mean b)))
                        (Fin (IZR periods)))].
Proof.
  intros H. unfold alpha. rewrite beta_distinct_labels by exact H. reflexivity.
Qed.

(** The values of the benchmark under another label: [beta] is 1,
    [alpha] is 0 and [r_squared] is 1, exactly so in real arithmetic. *)
Lemma identical_values_distinct_labels (name bname : string) (x : series) (periods : Z) :
  name <> bname -> 0 < sum_sq_dev x ->
  beta [(name, x)] [(bname, x)] = Returned [(name, Fin 1)] /\
  alpha [(name, x)] [(bname, x)] periods = Returned [(name, Fin 0)] /\
  r_squared [(name, x)] x = Returned [(name, Fin 1)].
Proof.
  intros Hl H.
  destruct (cov_self x H) as [Hc Hpos].
  set (v := sum_sq_dev x / (INR (length x) - 1)) in *.
  assert (Hq : fdiv (cov x x) (cov x x) = Fin 1).
  { rewrite Hc, fdiv_fin by lra. f_equal. field. lra. }
  split; [| split].
  - rewrite beta_distinct_labels by exact Hl. now rewrite Hq.
  - rewrite alpha_distinct_labels by exact Hl. rewrite Hq.
    pose proof (nondegenerate_length x H) as Hn.
    rewrite mean_nonempty by (destruct x; [simpl in Hn; lia | discriminate]).
    cbn [fmul fsub fneg fadd]. do 4 f_equal. ring.
  - unfold r_squared, clean_frame, clean. cbn [map fst snd r_squared_columns].
    rewrite linregress_rvalue_self by exact H. cbn [bind].
    now rewrite fpow_one.
Qed.

(** C9: the same one-column frame, labelled [a] with the values [1, 2],
    passed as both asset and benchmark.  The concatenated frame has the
    label [a] twice, and [beta] raises; [alpha], which calls [beta], raises
    too; [r_squared], which does not concatenate, returns 1. *)
Theorem identical_series_label_collision :
  beta [("a"%string, [1; 2])] [("a"%string, [1; 2])] =
    Raised "cannot reindex on an axis with duplicate labels" /\
  alpha [("a"%string, [1; 2])] [("a"%string, [1; 2])] 252 =
    Raised "cannot reindex on an axis with duplicate labels" /\
  r_squared [("a"%string, [1; 2])] [1; 2] = Returned [("a"%string, Fin 1)].
Proof.
  split; [apply beta_same_label |]. split.
  - unfold alpha. rewrite beta_same_label. reflexivity.
  - assert (Hl : "a"%string <> "b"%string) by discriminate.
    assert (H : 0 < sum_sq_dev [1; 2]) by (rewrite sum_sq_dev_one_two; lra).
    apply (identical_values_distinct_labels "a"%string "b"%string [1; 2] 252 Hl H).
Qed.

(** *** Win rate *)

Lemma count_if_filter (p : R -> bool) (s : series) :
  Spec.count_if p s = length (filter p s).
Proof.
  induction s as [|x s IH]; [reflexivity |].
  cbn. destruct (p x); cbn; now rewrite IH.
Qed.

Lemma filter_nonzero_positive (s : series) : positive (nonzero s) = positive s.
Proof.
  unfold positive, nonzero. induction s as [|x s IH]; [reflexivity |].
  cbn [filter]. unfold Reqb at 1. destruct (Req_dec_T x 0) as [-> | Hx]; cbn [negb].
  - rewrite Rltb_false by lra. exact IH.
  - cbn [filter]. now rewrite IH.
Qed.

Lemma filter_nonzero_idem (s : series) : nonzero (nonzero s) = nonzero s.
Proof.
  unfold nonzero. induction s as [|x s IH]; [reflexivity |].
  cbn [filter]. destruct (negb (Reqb x 0)) eqn:E; [| exact IH].
  cbn [filter]. now rewrite E, IH.
Qed.

Lemma positive_nonzero_all (s : series) :
  (forall r, In r s -> 0 <= r) -> positive s = nonzero s.
Proof.
  unfold positive, nonzero. induction s as [|x s IH]; intros H; [reflexivity |].
  cbn [filter]. rewrite IH by (intros r Hr; apply H; now right).
  assert (0 <= x) by (apply H; now left).
  unfold Rltb, Reqb. destruct (Rlt_dec 0 x), (Req_dec_T x 0); cbn [negb];
    try reflexivity; lra.
Qed.

Lemma positive_nonempty (s : series) :
  (exists r, In r s /\ 0 < r) -> (1 <= length (positive s))%nat.
Proof.
  intros (r & Hin & Hr).
  assert (Hp : In r (positive s)).
  { unfold positive. apply filter_In. split; [exact Hin | now apply Rltb_true]. }
  destruct (positive s); [contradiction | simpl; lia].
Qed.

(** C10: without aggregation, [win_rate] is the count of the strictly
    positive returns over the count of the non-zero returns, so that it
    is unchanged when the zero returns are removed; a series of
    non-negative returns with at least one positive return has a win rate
    of exactly 1; [risk_of_ruin] and [kelly_criterion] are computed from
    this same rate. *)
Theorem win_rate_excludes_zero_returns :
  forall (key : Type) (aggregate_returns : series -> key -> bool -> series)
         (returns : series) (compounded : bool),
    let rate :=
      fdiv (Fin (INR (Spec.count_if (fun r => Rltb 0 r) returns)))
           (Fin (INR (Spec.count_if (fun r => negb (Reqb r 0)) returns))) in
    win_rate key aggregate_returns returns None compounded = rate /\
    win_rate key aggregate_returns (nonzero returns) None compounded = rate /\
    ((forall r, In r returns -> 0 <= r) -> (exists r, In r returns /\ 0 < r) ->
     rate = Fin 1) /\
    risk_of_ruin key aggregate_returns returns =
      fpow (fdiv (fsub (Fin 1) rate) (fadd (Fin 1) rate))
           (Fin (INR (length returns))) /\
    kelly_criterion key aggregate_returns returns =
      fdiv (fsub (fmul (payoff_ratio returns) rate) (fsub (Fin 1) rate))
           (payoff_ratio returns).
Proof.
  intros key aggregate_returns returns compounded rate.
  assert (Hw : forall c, win_rate key aggregate_returns returns None c = rate).
  { intros c. unfold win_rate, rate, count, positive, nonzero.
    now rewrite !count_if_filter. }
  split; [apply Hw |]. split; [| split; [| split]].
  - rewrite <- (Hw compounded). unfold win_rate.
    now rewrite filter_nonzero_positive, filter_nonzero_idem.
  - intros Hall Hex. unfold rate. rewrite !count_if_filter.
    fold (positive returns). fold (nonzero returns).
    rewrite <- (positive_nonzero_all returns Hall).
    pose proof (positive_nonempty returns Hex) as Hlen.
    assert (0 < INR (length (positive returns))) by (apply lt_0_INR; lia).
    rewrite fdiv_fin by lra. f_equal. field. lra.
  - unfold risk_of_ruin. rewrite Hw. reflexivity.
  - unfold kelly_criterion. rewrite Hw. reflexivity.
Qed.

Lemma win_rate_excludes_zero_returns_witness :
  (forall r, In r [1; 0; 2] -> 0 <= r) /\
  (exists r, In r [1; 0; 2] /\ 0 < r) /\
  win_rate unit (fun s _ _ => s) [1; 0; 2] None true = Fin 1.
Proof.
  assert (Hall : forall r, In r [1; 0; 2] -> 0 <= r).
  { intros r [<- | [<- | [<- | []]]]; lra. }
  assert (Hex : exists r, In r [1; 0; 2] /\ 0 < r).
  { exists 1. split; [now left | lra]. }
  split; [exact Hall |]. split; [exact Hex |].
  destruct (win_rate_excludes_zero_returns unit (fun s _ _ => s) [1; 0; 2] true)
    as (Hw & _ & H1 & _).
  rewrite Hw. exact (H1 Hall Hex).
Defined.


(** ** Further properties of the statistics *)

(** *** Compounding *)

Lemma prod_app (a b : series) : prod (a ++ b) = prod a * prod b.
Proof.
  induction a as [|x a IH]; [simpl; lra |].
  cbn [app]. unfold prod in *. cbn [fold_right]. rewrite IH. ring.
Qed.

(** X1: compounding composes: the total return of one series followed by
    another is the compound of the two total returns,
    [(1 + total a) * (1 + total b) - 1]; the total return of no
    observation is 0. *)
Theorem total_return_concat :
  forall a b : series,
    total_return (a ++ b) = (1 + total_return a) * (1 + total_return b) - 1 /\
    total_return [] = 0.
Proof.
  intros a b. unfold total_return. split.
  - rewrite map_app, prod_app. ring.
  - simpl. lra.
Qed.

Lemma power_nonneg_nonneg (a b : R) : 0 <= Spec.power_nonneg a b.
Proof.
  unfold Spec.power_nonneg. destruct (Req_dec_T a 0); [lra |].
  unfold Rpower. left. apply exp_pos.
Qed.


(** X2: on at least two observations and for a positive number of
    periods per year, [cagr] is never a missing value and never below
    [-1]: it is a number at least [-1] (or plus infinity). *)
Theorem cagr_never_below_minus_one :
  forall (returns : series) (compounded : bool) (periods : Z),
    (2 <= length returns)%nat -> (0 < periods)%Z ->
    at_least (-1) (cagr returns compounded periods).
Proof.
  intros returns compounded periods Hn Hp.
  rewrite cagr_value by assumption. cbn [at_least].
  pose proof (power_nonneg_nonneg
                (Rabs ((if compounded then total_return returns else sum returns) + 1))
                (1 / ((INR (length returns) - 1) / IZR periods))).
  lra.
Qed.

Lemma cagr_never_below_minus_one_witness :
  (2 <= length [1; 1]%R)%nat /\ (0 < 252)%Z /\
  at_least (-1) (cagr [1; 1] true 252).
Proof.
  assert (H1 : (2 <= length [1; 1]%R)%nat) by (simpl; lia).
  assert (H2 : (0 < 252)%Z) by lia.
  split; [exact H1 |]. split; [exact H2 |].
  exact (cagr_never_below_minus_one [1; 1] true 252 H1 H2).
Defined.

(** X3: on a single observation [r] (and a positive number of periods
    per year) the number of years is zero and the exponent infinite:
    [cagr] returns [-1] when [|1 + r| < 1], 0 when [|1 + r| = 1] and plus
    infinity when [|1 + r| > 1]. *)
Theorem cagr_single_observation :
  forall (r : R) (periods : Z),
    (0 < periods)%Z ->
    cagr [r] true periods =
      (if Rlt_dec (Rabs (1 + r)) 1 then Fin (-1)
       else if Req_dec_T (Rabs (1 + r)) 1 then Fin 0
       else PInf).
Proof.
  intros r periods Hp. apply IZR_lt in Hp.
  unfold cagr, count, total_return. cbn [length map prod fold_right Z.of_nat].
  replace (IZR (Z.pos (Pos.of_succ_nat 0) - 1)) with 0 by (simpl; lra).
  rewrite (fdiv_fin 0 (IZR periods)) by lra.
  replace (0 / IZR periods) with 0 by (field; lra).
  rewrite fdiv_zero. rewrite over_zero_positive by lra.
  replace ((r + 1) * 1 - 1 + 1) with (1 + r) by ring.
  cbn [fabs fpow]. rewrite Rabs_Rabsolu.
  destruct (Rlt_dec (Rabs (1 + r)) 1); [cbn; f_equal; lra |].
  destruct (Req_dec_T (Rabs (1 + r)) 1); [cbn; f_equal; lra | reflexivity].
Qed.

Lemma cagr_single_observation_witness :
  (0 < 252)%Z /\
  cagr [1] true 252 =
    (if Rlt_dec (Rabs (1 + 1)) 1 then Fin (-1)
     else if Req_dec_T (Rabs (1 + 1)) 1 then Fin 0
     else PInf).
Proof.
  assert (H : (0 < 252)%Z) by lia.
  split; [exact H |]. exact (cagr_single_observation 1 252 H).
Defined.

Lemma prod_repeat (c : R) (n : nat) : prod (map (fun r => 1 + r) (repeat c n)) = (1 + c) ^ n.
Proof.
  induction n as [|n IH]; [reflexivity |].
  cbn [repeat map]. unfold prod in *. cbn [fold_right]. rewrite IH. reflexivity.
Qed.

Lemma power_nonneg_one (a : R) : 0 <= a -> Spec.power_nonneg a 1 = a.
Proof.
  intros H. unfold Spec.power_nonneg. destruct (Req_dec_T a 0); [lra |].
  apply Rpower_1. lra.
Qed.

(** X4: when the aggregation leaves the series unchanged,
    [expected_return] (the geometric mean return) of a constant series,
    [n >= 1] observations all equal to [c] with [1 + c >= 0], is [c]
    itself. *)
Theorem expected_return_constant :
  forall (key : Type) (aggregate_returns : series -> option key -> bool -> series)
         (c : R) (n : nat) (aggregate : option key) (compounded : bool),
    aggregate_returns (repeat c n) aggregate compounded = repeat c n ->
    (1 <= n)%nat -> 0 <= 1 + c ->
    expected_return key aggregate_returns (repeat c n) aggregate compounded = Fin c.
Proof.
  intros key agg c n aggregate compounded Hagg Hn Hc.
  unfold expected_return, count. rewrite Hagg, prod_repeat, repeat_length.
  assert (Hpos : 0 < INR n) by (apply lt_0_INR; lia).
  rewrite fdiv_fin by lra.
  rewrite power_nonneg_fpow;
    [| now apply pow_le | apply Rdiv_lt_0_compat; lra].
  rewrite power_nonneg_pow by (assumption || lia).
  replace (INR n * (1 / INR n)) with 1 by (field; lra).
  rewrite power_nonneg_one by exact Hc.
  cbn [fsub fneg fadd]. f_equal. ring.
Qed.

Lemma expected_return_constant_witness :
  (fun (s : series) (_ : option unit) (_ : bool) => s) (repeat 1 2) None true = repeat 1 2 /\
  (1 <= 2)%nat /\ 0 <= 1 + 1 /\
  expected_return unit (fun s _ _ => s) (repeat 1 2) None true = Fin 1.
Proof.
  assert (H1 : (fun (s : series) (_ : option unit) (_ : bool) => s) (repeat 1 2) None true
               = repeat 1 2) by reflexivity.
  assert (H2 : (1 <= 2)%nat) by lia.
  assert (H3 : 0 <= 1 + 1) by lra.
  split; [exact H1 |]. split; [exact H2 |]. split; [exact H3 |].
  exact (expected_return_constant unit (fun s _ _ => s) 1 2 None true H1 H2 H3).
Defined.

(** *** Deviation and the ratios built on it *)

Lemma sum_sq_nonneg (f : R -> R) (s : series) : 0 <= sum (map (fun x => f x * f x) s).
Proof.
  induction s as [|x s IH]; [simpl; lra |].
  cbn [map]. rewrite sum_cons. nra.
Qed.

Lemma sum_sq_zero (f : R -> R) (s : series) :
  sum (map (fun x => f x * f x) s) = 0 -> forall x, In x s -> f x = 0.
Proof.
  induction s as [|a s IH]; intros H x Hx; [contradiction |].
  cbn [map] in H. rewrite sum_cons in H.
  pose proof (sum_sq_nonneg f s) as Hs.
  destruct Hx as [<- | Hx]; [nra | apply IH; [nra | exact Hx]].
Qed.

Lemma std_value (s : series) :
  (2 <= length s)%nat ->
  std s = Fin (sqrt (sum_sq_dev s / (INR (length s) - 1))) /\
  0 < INR (length s) - 1 /\ 0 <= sum_sq_dev s.
Proof.
  intros H. unfold std, count.
  destruct (Nat.leb_spec (length s) 1); [lia |].
  split; [reflexivity |]. split.
  - apply le_INR in H. simpl in H. lra.
  - apply (sum_sq_nonneg (fun x => x - avg s)).
Qed.

Lemma mean_map_shift (d : R) (s : series) :
  mean (map (fun r => r - d) s) = fsub (mean s) (Fin d).
Proof.
  destruct s as [|x s]; [cbn [map]; rewrite mean_empty; reflexivity |].
  rewrite !mean_nonempty by discriminate.
  rewrite avg_map_shift by discriminate. reflexivity.
Qed.

(** X6: with a scalar risk-free rate, [sharpe] (without penalty) is the
    mean return less the per-period rate, over the deviation of the
    returns themselves: the rate moves the numerator only. *)
Theorem sharpe_scalar_rate :
  forall (deannualize : R -> Z -> R) (returns : series) (rf : R)
         (periods : Z) (annualize : bool),
    let ratio := fdiv (fsub (mean returns) (Fin (deannualize rf periods)))
                      (std returns) in
    sharpe deannualize returns (Scalar rf) periods annualize false =
      (if annualize then fmul ratio (fsqrt (Fin (IZR periods))) else ratio).
Proof.
  intros deannualize returns rf periods annualize ratio.
  unfold sharpe, ratio. cbn [to_excess_returns].
  now rewrite std_map_shift, mean_map_shift.
Qed.

(** X7: [risk_return_ratio] is the Sharpe ratio without the risk-free
    rate: [sharpe] with a rate whose per-period value is 0, no
    annualisation and no penalty. *)
Theorem risk_return_ratio_is_sharpe_without_rate :
  forall (deannualize : R -> Z -> R) (returns : series) (periods : Z),
    deannualize 0 periods = 0 ->
    sharpe deannualize returns (Scalar 0) periods false false =
      risk_return_ratio returns.
Proof.
  intros deannualize returns periods H.
  unfold sharpe, risk_return_ratio. cbn [to_excess_returns].
  rewrite std_map_shift, mean_map_shift, H. f_equal.
  destruct (mean returns) as [a| | |]; cbn; try reflexivity. f_equal. lra.
Qed.

Lemma risk_return_ratio_is_sharpe_without_rate_witness :
  deannualize_compound 0 252 = 0 /\
  sharpe deannualize_compound [1; 2] (Scalar 0) 252 false false =
    risk_return_ratio [1; 2].
Proof.
  assert (H : deannualize_compound 0 252 = 0) by apply deannualize_compound_zero.
  split; [exact H |].
  exact (risk_return_ratio_is_sharpe_without_rate deannualize_compound [1; 2] 252 H).
Defined.

(** X8: when no excess return is negative, the downside deviation of
    [sortino] is zero and the ratio (without penalty) is the mean excess
    return over zero: plus infinity for a positive mean, a missing value
    for a zero mean or an empty series. *)
Theorem sortino_without_losses :
  forall (deannualize : R -> Z -> R) (returns : series) (rf : rate)
         (periods : Z) (annualize : bool),
    (annualize = true -> (0 < periods)%Z) ->
    negative (to_excess_returns deannualize returns rf periods) = [] ->
    sortino deannualize returns rf periods annualize false =
      Spec.over_zero (mean (to_excess_returns deannualize returns rf periods)).
Proof.
  intros deannualize returns rf periods annualize Hp Hneg.
  unfold sortino. rewrite Hneg. cbn [map sum fold_right].
  set (excess := to_excess_returns deannualize returns rf periods).
  assert (E : fdiv (mean excess)
                   (fsqrt (fdiv (Fin 0) (Fin (INR (length excess)))))
              = Spec.over_zero (mean excess)).
  { destruct excess as [|x t].
    - rewrite mean_empty. cbn [length INR]. rewrite fdiv_zero. cbn.
      real_cases. reflexivity.
    - rewrite fdiv_fin by (apply not_0_INR; simpl; lia).
      unfold Rdiv. rewrite Rmult_0_l, fsqrt_fin, sqrt_0 by lra.
      apply fdiv_over_zero. }
  rewrite E. destruct annualize; [| reflexivity].
  destruct (sqrt_periods periods (Hp eq_refl)) as [-> Hpos].
  now apply over_zero_scale.
Qed.

Lemma sortino_without_losses_witness :
  (true = true -> (0 < 252)%Z) /\
  negative (to_excess_returns deannualize_compound [1; 1] (Scalar 0) 252) = [] /\
  sortino deannualize_compound [1; 1] (Scalar 0) 252 true false =
    Spec.over_zero (mean (to_excess_returns deannualize_compound [1; 1] (Scalar 0) 252)).
Proof.
  assert (Hp : true = true -> (0 < 252)%Z) by (intros _; lia).
  assert (Hn : negative (to_excess_returns deannualize_compound [1; 1] (Scalar 0) 252) = []).
  { rewrite excess_of_zero_rate. unfold negative. cbn [filter].
    rewrite Rltb_false by lra. reflexivity. }
  split; [exact Hp |]. split; [exact Hn |].
  exact (sortino_without_losses deannualize_compound [1; 1] (Scalar 0) 252 true Hp Hn).
Defined.

(** *** Gains over losses *)

(** Decide on which side of zero an observation lies, in the selections
    by sign. *)
Ltac sign_cases x :=
  destruct (Rlt_dec x 0);
  [rewrite ?(Rltb_true x 0), ?(Rltb_false 0 x) by lra
  | rewrite ?(Rltb_false x 0) by lra;
    destruct (Rlt_dec 0 x);
    [rewrite ?(Rltb_true 0 x) by lra | rewrite ?(Rltb_false 0 x) by lra]];
  cbn [negb].

Lemma sum_nonnegative_positive (s : series) : sum (nonnegative s) = sum (positive s).
Proof.
  unfold nonnegative, positive. induction s as [|x s IH]; [reflexivity |].
  cbn [filter]. sign_cases x; rewrite ?sum_cons, IH; lra.
Qed.

Lemma sum_positive_nonneg (s : series) : 0 <= sum (positive s).
Proof.
  unfold positive. induction s as [|x s IH]; [simpl; lra |].
  cbn [filter]. sign_cases x; rewrite ?sum_cons; lra.
Qed.

Lemma sum_negative_nonpos (s : series) : sum (negative s) <= 0.
Proof.
  unfold negative. induction s as [|x s IH]; [simpl; lra |].
  cbn [filter]. sign_cases x; rewrite ?sum_cons; lra.
Qed.

Lemma abs_of_quotient (a b : R) :
  0 <= a -> b <= 0 ->
  fabs (fdiv (Fin a) (Fin b)) = fdiv (Fin a) (fabs (Fin b)).
Proof.
  intros Ha Hb. cbn [fabs]. unfold fdiv.
  destruct (Req_dec_T b 0) as [-> | Hz].
  - rewrite Rabs_R0. destruct (Req_dec_T 0 0); [| lra].
    unfold signed. real_cases; reflexivity.
  - assert (Hn : Rabs b = - b) by (apply Rabs_left; lra).
    destruct (Req_dec_T (Rabs b) 0); [lra |]. cbn [fabs]. f_equal.
    rewrite Hn. unfold Rdiv.
    assert (Hle : a * / b <= 0).
    { assert (/ b < 0) by (apply Rinv_lt_0_compat; lra). nra. }
    rewrite Rabs_left1 by exact Hle. field. exact Hz.
Qed.

(** X9: [omega] is the [profit_factor] of the excess returns over the
    required return: the sum of the gains over the absolute sum of the
    losses, with the same result when there is no loss (plus infinity, or
    a missing value when there is no gain either). *)
Theorem omega_is_profit_factor_of_excess :
  forall (deannualize : R -> Z -> R) (returns : series)
         (required_returns : rate) (periods : Z),
    omega deannualize returns required_returns periods =
    profit_factor (to_excess_returns deannualize returns required_returns periods).
Proof.
  intros deannualize returns required_returns periods.
  unfold omega, profit_factor.
  rewrite sum_nonnegative_positive. symmetry.
  apply abs_of_quotient; [apply sum_positive_nonneg | apply sum_negative_nonpos].
Qed.

(** *** Rolling statistics at every position *)

Lemma window_at_map (f : R -> R) (w : nat) (s : series) (i : nat) :
  window_at w (map f s) i = map f (window_at w s i).
Proof. unfold window_at. now rewrite skipn_map, firstn_map. Qed.

Lemma window_at_length (w : nat) (s : series) (i : nat) :
  (w <= S i)%nat -> (i < length s)%nat -> length (window_at w s i) = w.
Proof.
  intros Hw Hi. unfold window_at. rewrite length_firstn, length_skipn. lia.
Qed.

Lemma nth_error_div_series (a b : list float) (i : nat) (x y : float) :
  nth_error a i = Some x -> nth_error b i = Some y ->
  nth_error (div_series a b) i = Some (fdiv x y).
Proof.
  intros Ha Hb. unfold div_series.
  now rewrite nth_error_map, (nth_error_combine a b i x y Ha Hb).
Qed.

(** X11: with a scalar risk-free rate, [rolling_sortino] with a window
    of [w] is missing at each position before [w - 1], and at every later
    position it is [sortino] (without penalty) of the [w] observations
    that end there. *)
Theorem rolling_sortino_every_window :
  forall (deannualize : R -> Z -> R) (returns : series) (rf : R) (w : nat)
         (annualize : bool) (periods : Z),
  exists l,
    rolling_sortino deannualize returns (Scalar rf) (Z.of_nat w) annualize periods
      = Returned l /\
    (forall i, (S i < w)%nat -> (i < length returns)%nat ->
               nth_error l i = Some NaN) /\
    (forall i, (w <= S i)%nat -> (i < length returns)%nat ->
               nth_error l i =
                 Some (sortino deannualize (window_at w returns i) (Scalar rf)
                               periods annualize false)).
Proof.
  intros deannualize returns rf w annualize periods.
  unfold rolling_sortino, sortino. cbn [to_excess_returns].
  set (d := deannualize rf periods).
  set (excess := map (fun r => r - d) returns).
  set (sq := fun x : series => Fin (sum (map (fun v => v * v) (negative x)))).
  assert (Hle : length excess = length returns) by (unfold excess; now rewrite length_map).
  destruct (rolling_nth w sq excess) as (dn & -> & _ & Hdn & Hdv).
  destruct (rolling_nth w mean excess) as (m & -> & _ & Hmn & Hmv).
  cbn [bind].
  set (res := div_series m (map fsqrt (map (fun v => fdiv v (Fin (IZR (Z.of_nat w)))) dn))).
  assert (Hnan : forall i, (S i < w)%nat -> (i < length returns)%nat ->
                           nth_error res i = Some NaN).
  { intros i Hi Hn. unfold res.
    rewrite (nth_error_div_series _ _ i NaN NaN); [reflexivity | |].
    - apply Hmn; lia.
    - rewrite !nth_error_map, Hdn by lia. reflexivity. }
  assert (Hval : forall i, (w <= S i)%nat -> (i < length returns)%nat ->
            nth_error res i =
            Some (fdiv (mean (map (fun r => r - d) (window_at w returns i)))
                       (fsqrt (fdiv (sq (map (fun r => r - d) (window_at w returns i)))
                                    (Fin (INR (length (map (fun r => r - d)
                                                           (window_at w returns i))))))))).
  { intros i Hi Hn. unfold res.
    rewrite (nth_error_div_series _ _ i (mean (window_at w excess i))
               (fsqrt (fdiv (sq (window_at w excess i)) (Fin (IZR (Z.of_nat w)))))).
    - unfold excess. rewrite window_at_map, length_map, window_at_length by assumption.
      now rewrite INR_IZR_INZ.
    - apply Hmv; lia.
    - rewrite !nth_error_map, Hdv by lia. reflexivity. }
  destruct annualize; eexists; (split; [reflexivity |]); split.
  - intros i Hi Hn. now rewrite nth_error_map, Hnan.
  - intros i Hi Hn. now rewrite nth_error_map, Hval.
  - exact Hnan.
  - exact Hval.
Qed.


(** *** The autocorrelation penalty never shrinks a divisor *)

Lemma fadd_nan_r (x : float) : fadd x NaN = NaN.
Proof. destruct x; reflexivity. Qed.

Lemma corrcoef_range (x y : series) :
  corrcoef x y = NaN \/ exists p, corrcoef x y = Fin p /\ -1 <= p <= 1.
Proof.
  unfold corrcoef.
  destruct (fdiv (fdiv (cov x y) (fsqrt (cov x x))) (fsqrt (cov y y))) as [a| | |];
    cbn [fclip]; [| right; exists 1; split; [reflexivity | lra]
                  | right; exists (-1); split; [reflexivity | lra]
                  | now left].
  right. destruct (Rlt_dec a (-1)); [exists (-1); split; [reflexivity | lra] |].
  destruct (Rlt_dec 1 a); [exists 1 | exists a]; (split; [reflexivity | lra]).
Qed.

Lemma sigma_nonneg (f : nat -> float) (m : nat) :
  (forall k, (1 <= k <= m)%nat -> exists g, f k = Fin g /\ 0 <= g) ->
  exists t, Spec.sigma f m = Fin t /\ 0 <= t.
Proof.
  induction m as [|m IH]; intros H.
  - exists 0. split; [reflexivity | lra].
  - destruct IH as (t & Ht & Hpos); [intros k Hk; apply H; lia |].
    destruct (H (S m)) as (g & Hg & Hgpos); [lia |].
    exists (t + g). cbn [Spec.sigma]. rewrite Ht, Hg. split; [reflexivity | lra].
Qed.

Lemma sigma_nan (f : nat -> float) (m : nat) :
  (1 <= m)%nat -> f m = NaN -> Spec.sigma f m = NaN.
Proof.
  intros Hm H. destruct m as [|m]; [lia |].
  cbn [Spec.sigma]. rewrite H. apply fadd_nan_r.
Qed.

Lemma autocorr_penalty_column_bound (col : series) :
  (exists v, autocorr_penalty_column col = Fin v /\ 1 <= v) \/
  ((2 <= length col)%nat /\ Spec.lag1_autocorrelation col = NaN /\
   autocorr_penalty_column col = NaN).
Proof.
  destruct (Nat.lt_ge_cases (length col) 2) as [Hshort | Hlong].
  { left. exists 1. split; [now apply autocorr_penalty_column_short | lra]. }
  rewrite autocorr_penalty_column_factor.
  unfold Spec.lag1_autocorrelation.
  destruct (corrcoef_range (removelast col) (tl col)) as [-> | (p & -> & Hp)].
  - right. split; [exact Hlong |]. split; [reflexivity |].
    unfold Spec.correction_factor. cbn [fabs].
    rewrite sigma_nan; [reflexivity | lia |].
    rewrite fpow_nan_nat by lia. apply fmul_nan_r.
  - left. unfold Spec.correction_factor. cbn [fabs].
    set (n := length col) in *.
    destruct (sigma_nonneg
                (fun k => fmul (Fin ((INR n - INR k) / INR n))
                               (fpow (Fin (Rabs p)) (Fin (INR k)))) (n - 1))
      as (t & -> & Ht).
    + intros k Hk. rewrite fpow_nat by lia. cbn [fmul]. eexists. split; [reflexivity |].
      assert (0 < INR n) by (apply lt_0_INR; lia).
      assert (INR k <= INR n) by (apply le_INR; lia).
      apply Rmult_le_pos; [apply Rmult_le_pos; [lra | left; now apply Rinv_0_lt_compat] |].
      apply pow_le, Rabs_pos.
    + cbn [fmul fadd]. rewrite fsqrt_fin by lra.
      eexists. split; [reflexivity |].
      rewrite <- sqrt_1 at 1. apply sqrt_le_1_alt. lra.
Qed.

Lemma autocorr_penalty_column_missing (col : series) :
  (2 <= length col)%nat -> Spec.lag1_autocorrelation col = NaN ->
  autocorr_penalty_column col = NaN.
Proof.
  intros Hn Hl. rewrite autocorr_penalty_column_factor, Hl.
  unfold Spec.correction_factor. cbn [fabs].
  rewrite sigma_nan; [reflexivity | lia |].
  rewrite fpow_nan_nat by lia. apply fmul_nan_r.
Qed.

Lemma autocorr_penalty_column_finite (col : series) (p : R) :
  Spec.lag1_autocorrelation col = Fin p ->
  exists v, autocorr_penalty_column col = Fin v /\ 1 <= v.
Proof.
  intros Hl.
  destruct (autocorr_penalty_column_bound col) as [H | (_ & Hnan & _)];
    [exact H | congruence].
Qed.

(** X13: for every column, [autocorr_penalty] is a finite number that is
    at least 1 when the column has fewer than two observations or its
    lag-1 correlation is a number, and a missing value when the column has
    at least two observations and its lag-1 correlation is missing; these
    are the only cases.  The penalty therefore never makes the divisor of
    a "smart" ratio smaller. *)
Theorem autocorr_penalty_at_least_one :
  forall (name : string) (col : series),
    (((length col < 2)%nat \/ exists p, Spec.lag1_autocorrelation col = Fin p) /\
     exists v, autocorr_penalty [(name, col)] = [(name, Fin v)] /\ 1 <= v) \/
    ((2 <= length col)%nat /\ Spec.lag1_autocorrelation col = NaN /\
     autocorr_penalty [(name, col)] = [(name, NaN)]).
Proof.
  intros name col. unfold autocorr_penalty, clean_frame, clean. cbn [map fst snd].
  destruct (Nat.lt_ge_cases (length col) 2) as [Hshort | Hlong].
  { left. split; [now left |]. exists 1.
    rewrite autocorr_penalty_column_short by exact Hshort. split; [reflexivity | lra]. }
  destruct (corrcoef_range (removelast col) (tl col)) as [Hl | (p & Hl & _)];
    fold (Spec.lag1_autocorrelation col) in Hl.
  - right. split; [exact Hlong |]. split; [exact Hl |].
    now rewrite autocorr_penalty_column_missing.
  - left. split; [right; now exists p |].
    destruct (autocorr_penalty_column_finite col p Hl) as (v & -> & Hv).
    exists v. split; [reflexivity | exact Hv].
Qed.

(** X23: when the deviation of the excess returns is a positive number
    and the autocorrelation penalty [p] of the returns is defined, [p] is
    at least 1 and the "smart" [sharpe] is the plain [sharpe] divided by
    [p]: the penalty never increases the magnitude of the ratio. *)
Theorem smart_sharpe_is_penalised :
  forall (deannualize : R -> Z -> R) (returns : series) (rf : rate)
         (periods : Z) (annualize : bool) (s p : R),
    std (to_excess_returns deannualize returns rf periods) = Fin s -> 0 < s ->
    autocorr_penalty_column (clean returns) = Fin p ->
    1 <= p /\
    sharpe deannualize returns rf periods annualize true =
      fdiv (sharpe deannualize returns rf periods annualize false) (Fin p).
Proof.
  intros deannualize returns rf periods annualize s p Hs Hpos Hp.
  assert (H1 : 1 <= p).
  { destruct (autocorr_penalty_column_bound (clean returns))
      as [(v & Hv & Hle) | (_ & _ & Hnan)]; [| congruence].
    rewrite Hp in Hv. injection Hv as ->. exact Hle. }
  split; [exact H1 |].
  unfold sharpe. rewrite Hs, Hp.
  set (excess := to_excess_returns deannualize returns rf periods) in *.
  assert (Hne : excess <> []).
  { intros E. rewrite E in Hs. discriminate. }
  rewrite mean_nonempty by exact Hne.
  cbn [fmul]. rewrite !fdiv_fin by nra.
  destruct annualize; [| rewrite fdiv_fin by lra; f_equal; field; lra].
  unfold fsqrt. destruct (Rlt_dec (IZR periods) 0); [reflexivity |].
  cbn [fmul]. rewrite fdiv_fin by lra. f_equal. field. lra.
Qed.

Lemma sum_sq_dev_example : sum_sq_dev [1; -1; 0; 1] = 11 / 4.
Proof. unfold sum_sq_dev, avg, count. simpl. field. Qed.

Lemma smart_sharpe_is_penalised_witness :
  std (to_excess_returns deannualize_compound [1; -1; 0; 1] (Scalar 0) 252)
    = Fin (sqrt (11 / 4 / (INR 4 - 1))) /\
  0 < sqrt (11 / 4 / (INR 4 - 1)) /\
  autocorr_penalty_column (clean [1; -1; 0; 1]) = Fin (sqrt (33 / 16)) /\
  1 <= sqrt (33 / 16) /\
  sharpe deannualize_compound [1; -1; 0; 1] (Scalar 0) 252 true true =
    fdiv (sharpe deannualize_compound [1; -1; 0; 1] (Scalar 0) 252 true false)
         (Fin (sqrt (33 / 16))).
Proof.
  assert (Hs : std (to_excess_returns deannualize_compound [1; -1; 0; 1] (Scalar 0) 252)
               = Fin (sqrt (11 / 4 / (INR 4 - 1)))).
  { rewrite excess_of_zero_rate.
    destruct (std_value [1; -1; 0; 1]) as (-> & _ & _); [simpl; lia |].
    now rewrite sum_sq_dev_example. }
  assert (Hpos : 0 < sqrt (11 / 4 / (INR 4 - 1))).
  { apply sqrt_lt_R0. simpl. lra. }
  assert (Hp : autocorr_penalty_column (clean [1; -1; 0; 1]) = Fin (sqrt (33 / 16)))
    by apply autocorr_penalty_example.
  split; [exact Hs |]. split; [exact Hpos |]. split; [exact Hp |].
  exact (smart_sharpe_is_penalised deannualize_compound [1; -1; 0; 1] (Scalar 0) 252 true
           _ _ Hs Hpos Hp).
Defined.

(** *** Win rate, risk of ruin and the Kelly criterion *)

Lemma positive_le_nonzero (s : series) :
  (length (positive s) <= length (nonzero s))%nat.
Proof.
  rewrite <- filter_nonzero_positive. unfold positive at 1. apply filter_length_le.
Qed.

Lemma rate_in_unit_interval (k m : nat) :
  (k <= m)%nat -> (1 <= m)%nat ->
  fdiv (Fin (INR k)) (Fin (INR m)) = Fin (INR k / INR m) /\
  0 <= INR k / INR m <= 1.
Proof.
  intros Hk Hm.
  assert (0 < INR m) by (apply lt_0_INR; lia).
  assert (INR k <= INR m) by now apply le_INR.
  assert (0 <= INR k) by apply pos_INR.
  split; [apply fdiv_fin; lra |]. split.
  - apply Rmult_le_pos; [lra | left; now apply Rinv_0_lt_compat].
  - apply Rmult_le_reg_r with (INR m); [lra |].
    unfold Rdiv. rewrite Rmult_assoc, Rinv_l by lra. lra.
Qed.

Lemma nonempty_length {A : Type} (l : list A) : l <> [] -> (1 <= length l)%nat.
Proof. destruct l; [congruence | simpl; lia]. Qed.

(** X14: without aggregation, [win_rate] is a missing value exactly when
    the series has no non-zero return (in particular when it is empty);
    otherwise it is a finite number between 0 and 1. *)
Theorem win_rate_range :
  forall (key : Type) (aggregate_returns : series -> key -> bool -> series)
         (returns : series) (compounded : bool),
    (nonzero returns = [] /\
     win_rate key aggregate_returns returns None compounded = NaN) \/
    (nonzero returns <> [] /\
     exists w, win_rate key aggregate_returns returns None compounded = Fin w /\
               0 <= w <= 1).
Proof.
  intros key agg returns compounded. unfold win_rate, count.
  destruct (nonzero returns) as [|x t] eqn:E.
  - left. split; [reflexivity |].
    assert (Hp : positive returns = []).
    { rewrite <- filter_nonzero_positive, E. reflexivity. }
    rewrite Hp. cbn [length INR]. rewrite fdiv_zero. cbn. real_cases. reflexivity.
  - right. split; [discriminate |].
    pose proof (positive_le_nonzero returns) as Hle. rewrite E in Hle.
    destruct (rate_in_unit_interval (length (positive returns)) (length (x :: t)) Hle)
      as [-> Hr]; [simpl; lia |].
    eexists. split; [reflexivity | exact Hr].
Qed.

Lemma negative_empty_nonneg (s : series) :
  negative s = [] -> forall r, In r s -> 0 <= r.
Proof.
  intros H r Hr. destruct (Rlt_dec r 0) as [Hn | Hn]; [| lra].
  assert (Hin : In r (negative s)).
  { unfold negative. apply filter_In. split; [exact Hr | now apply Rltb_true]. }
  rewrite H in Hin. contradiction.
Qed.

(** X15: when the series has a non-zero return, [risk_of_ruin] is a
    finite number between 0 and 1; it is 0 when no return is negative and
    1 when no return is positive. *)
Theorem risk_of_ruin_range :
  forall (key : Type) (aggregate_returns : series -> key -> bool -> series)
         (returns : series),
    nonzero returns <> [] ->
    exists v, risk_of_ruin key aggregate_returns returns = Fin v /\
              0 <= v <= 1 /\
              (negative returns = [] -> v = 0) /\
              (positive returns = [] -> v = 1).
Proof.
  intros key agg returns Hnz. unfold risk_of_ruin, win_rate, count.
  pose proof (positive_le_nonzero returns) as Hle.
  pose proof (nonempty_length _ Hnz) as Hm.
  destruct (rate_in_unit_interval _ _ Hle Hm) as [-> Hw].
  set (w := INR (length (positive returns)) / INR (length (nonzero returns))) in *.
  assert (Hn : (1 <= length returns)%nat).
  { pose proof (filter_length_le (fun x => negb (Reqb x 0)) returns) as Hf.
    fold (nonzero returns) in Hf. lia. }
  cbn [fsub fneg fadd]. rewrite fdiv_fin by lra. rewrite fpow_nat by exact Hn.
  set (base := (1 + - w) / (1 + w)).
  assert (Hb : 0 <= base <= 1).
  { unfold base. split.
    - apply Rmult_le_pos; [lra | left; apply Rinv_0_lt_compat; lra].
    - apply Rmult_le_reg_r with (1 + w); [lra |].
      unfold Rdiv. rewrite Rmult_assoc, Rinv_l by lra. lra. }
  eexists. split; [reflexivity |]. split; [| split].
  - split; [now apply pow_le |].
    rewrite <- (pow1 (length returns)). now apply pow_incr.
  - intros Hneg.
    assert (Hw1 : w = 1).
    { unfold w. rewrite (positive_nonzero_all returns (negative_empty_nonneg returns Hneg)).
      field. apply not_0_INR. lia. }
    assert (Hb0 : base = 0) by (unfold base; rewrite Hw1; field).
    rewrite Hb0. apply pow_i. lia.
  - intros Hpos.
    assert (Hw0 : w = 0).
    { unfold w. rewrite Hpos. cbn [length INR]. field. apply not_0_INR. lia. }
    assert (Hb1 : base = 1) by (unfold base; rewrite Hw0; field).
    rewrite Hb1. apply pow1.
Qed.

Lemma risk_of_ruin_range_witness :
  nonzero [1; -1] <> [] /\
  exists v, risk_of_ruin unit (fun s _ _ => s) [1; -1] = Fin v /\
            0 <= v <= 1 /\
            (negative [1; -1] = [] -> v = 0) /\
            (positive [1; -1] = [] -> v = 1).
Proof.
  assert (H : nonzero [1; -1] <> []).
  { unfold nonzero. cbn [filter]. rewrite (Reqb_false 1 0) by lra. discriminate. }
  split; [exact H |].
  exact (risk_of_ruin_range unit (fun s _ _ => s) [1; -1] H).
Defined.

Lemma fdiv_nan_r (x : float) : fdiv x NaN = NaN.
Proof. destruct x; reflexivity. Qed.

Lemma nonzero_split (s : series) :
  length (nonzero s) = (length (positive s) + length (negative s))%nat.
Proof.
  unfold nonzero, positive, negative. induction s as [|x s IH]; [reflexivity |].
  cbn [filter]. destruct (Req_dec_T x 0) as [E | E].
  - rewrite (Reqb_true x 0), (Rltb_false 0 x), (Rltb_false x 0) by lra.
    cbn [negb]. exact IH.
  - rewrite (Reqb_false x 0) by exact E.
    cbn [negb]. sign_cases x; cbn [length]; rewrite IH; try lia.
    exfalso. apply E. lra.
Qed.

Lemma sum_all_positive (l : series) :
  (forall x, In x l -> 0 < x) -> l <> [] -> 0 < sum l.
Proof.
  induction l as [|a l IH]; intros H Hne; [congruence |].
  rewrite sum_cons. assert (0 < a) by (apply H; now left).
  destruct l as [|b l]; [simpl; lra |].
  assert (0 < sum (b :: l)) by (apply IH; [intros x Hx; apply H; now right | discriminate]).
  lra.
Qed.

Lemma sum_all_negative (l : series) :
  (forall x, In x l -> x < 0) -> l <> [] -> sum l < 0.
Proof.
  induction l as [|a l IH]; intros H Hne; [congruence |].
  rewrite sum_cons. assert (a < 0) by (apply H; now left).
  destruct l as [|b l]; [simpl; lra |].
  assert (sum (b :: l) < 0) by (apply IH; [intros x Hx; apply H; now right | discriminate]).
  lra.
Qed.

Lemma avg_win_positive (returns : series) :
  positive returns <> [] ->
  exists a, avg_win returns = Fin a /\ 0 < a.
Proof.
  intros H. unfold avg_win. rewrite mean_nonempty by exact H.
  eexists. split; [reflexivity |]. unfold avg, count.
  apply Rdiv_lt_0_compat.
  - apply sum_all_positive; [| exact H].
    intros x Hx. unfold positive in Hx. apply filter_In in Hx.
    destruct Hx as [_ Hx]. unfold Rltb in Hx.
    destruct (Rlt_dec 0 x); [assumption | discriminate].
  - apply lt_0_INR. pose proof (nonempty_length _ H). lia.
Qed.

Lemma avg_loss_negative (returns : series) :
  negative returns <> [] ->
  exists l, avg_loss returns = Fin l /\ l < 0.
Proof.
  intros H. unfold avg_loss. rewrite mean_nonempty by exact H.
  eexists. split; [reflexivity |]. unfold avg, count.
  assert (Hs : sum (negative returns) < 0).
  { apply sum_all_negative; [| exact H].
    intros x Hx. unfold negative in Hx. apply filter_In in Hx.
    destruct Hx as [_ Hx]. unfold Rltb in Hx.
    destruct (Rlt_dec x 0); [assumption | discriminate]. }
  assert (Hn : 0 < INR (length (negative returns))).
  { apply lt_0_INR. pose proof (nonempty_length _ H). lia. }
  assert (0 < / INR (length (negative returns))) by now apply Rinv_0_lt_compat.
  unfold Rdiv. nra.
Qed.

(** X16: [kelly_criterion] is a missing value when the series has no
    positive return or no negative return.  When it has both, the payoff
    ratio [p] is a positive number, the win rate [w] lies strictly between
    0 and 1, and the result is [w - (1 - w) / p]. *)
Theorem kelly_criterion_value :
  forall (key : Type) (aggregate_returns : series -> key -> bool -> series)
         (returns : series),
    ((positive returns = [] \/ negative returns = []) ->
     kelly_criterion key aggregate_returns returns = NaN) /\
    (positive returns <> [] -> negative returns <> [] ->
     exists p w,
       payoff_ratio returns = Fin p /\ 0 < p /\
       win_rate key aggregate_returns returns None true = Fin w /\ 0 < w < 1 /\
       kelly_criterion key aggregate_returns returns = Fin (w - (1 - w) / p)).
Proof.
  intros key agg returns. split.
  - intros H. unfold kelly_criterion.
    assert (Hp : payoff_ratio returns = NaN).
    { unfold payoff_ratio, avg_win, avg_loss.
      destruct H as [-> | ->]; rewrite mean_empty; [reflexivity |].
      cbn [fabs]. apply fdiv_nan_r. }
    rewrite Hp. apply fdiv_nan_r.
  - intros Hpos Hneg.
    destruct (avg_win_positive returns Hpos) as (a & Ha & Hapos).
    destruct (avg_loss_negative returns Hneg) as (l & Hl & Hlneg).
    assert (Habs : Rabs l = - l) by (apply Rabs_left; lra).
    assert (Hp : payoff_ratio returns = Fin (a / - l)).
    { unfold payoff_ratio. rewrite Ha, Hl. cbn [fabs]. rewrite Habs.
      apply fdiv_fin. lra. }
    assert (Hppos : 0 < a / - l) by (apply Rdiv_lt_0_compat; lra).
    pose proof (nonempty_length _ Hpos) as Hk.
    pose proof (nonempty_length _ Hneg) as Hj.
    pose proof (nonzero_split returns) as Hsplit.
    set (k := length (positive returns)) in *.
    set (j := length (negative returns)) in *.
    assert (Hm : 0 < INR (length (nonzero returns))) by (apply lt_0_INR; lia).
    assert (Hw : win_rate key agg returns None true
                 = Fin (INR k / INR (length (nonzero returns)))).
    { unfold win_rate, count. fold k. apply fdiv_fin. lra. }
    assert (Hwr : 0 < INR k / INR (length (nonzero returns)) < 1).
    { rewrite Hsplit, plus_INR in *.
      assert (0 < INR k) by (apply lt_0_INR; lia).
      assert (0 < INR j) by (apply lt_0_INR; lia).
      split; [apply Rdiv_lt_0_compat; lra |].
      apply Rmult_lt_reg_r with (INR k + INR j); [lra |].
      unfold Rdiv. rewrite Rmult_assoc, Rinv_l by lra. lra. }
    exists (a / - l), (INR k / INR (length (nonzero returns))).
    split; [exact Hp |]. split; [exact Hppos |].
    split; [exact Hw |]. split; [exact Hwr |].
    unfold kelly_criterion. rewrite Hp, Hw.
    cbn [fmul fsub fneg fadd]. rewrite fdiv_fin by lra.
    f_equal. field. split; lra.
Qed.

Lemma kelly_criterion_value_witness :
  positive [2; -1] <> [] /\ negative [2; -1] <> [] /\
  exists p w,
    payoff_ratio [2; -1] = Fin p /\ 0 < p /\
    win_rate unit (fun s _ _ => s) [2; -1] None true = Fin w /\ 0 < w < 1 /\
    kelly_criterion unit (fun s _ _ => s) [2; -1] = Fin (w - (1 - w) / p).
Proof.
  assert (H1 : positive [2; -1] <> []).
  { unfold positive. cbn [filter]. rewrite (Rltb_true 0 2) by lra. discriminate. }
  assert (H2 : negative [2; -1] <> []).
  { unfold negative. cbn [filter].
    rewrite (Rltb_false 2 0), (Rltb_true (-1) 0) by lra. discriminate. }
  split; [exact H1 |]. split; [exact H2 |].
  exact (proj2 (kelly_criterion_value unit (fun s _ _ => s) [2; -1]) H1 H2).
Defined.

Lemma sum_nonzero (s : series) : sum (nonzero s) = sum s.
Proof.
  unfold nonzero. induction s as [|x s IH]; [reflexivity |].
  cbn [filter]. destruct (Req_dec_T x 0) as [E | E].
  - rewrite (Reqb_true x 0) by exact E. cbn [negb]. rewrite sum_cons, IH. lra.
  - rewrite (Reqb_false x 0) by exact E. cbn [negb]. now rewrite !sum_cons, IH.
Qed.

Lemma select_nonzero_mask (col : series) :
  select_rows (nonzero_mask col) col = nonzero col.
Proof.
  unfold select_rows, nonzero_mask, nonzero.
  induction col as [|x col IH]; [reflexivity |].
  cbn [map combine filter snd]. destruct (negb (Reqb x 0)); cbn [map fst]; now rewrite IH.
Qed.

(** X17: on a frame of one column, without aggregation, [avg_return] is
    the sum of all the returns of the column over the count of its
    non-zero returns: zero returns add nothing to the sum and are left out
    of the count. *)
Theorem avg_return_over_nonzero :
  forall (key : Type) (aggregate_frame : frame -> key -> bool -> frame)
         (name : string) (col : series) (compounded : bool),
    avg_return key aggregate_frame [(name, col)] None compounded =
    [(name, fdiv (Fin (sum col)) (Fin (INR (length (nonzero col)))))].
Proof.
  intros key agg name col compounded. unfold avg_return.
  cbn [map fst snd kept_rows]. rewrite select_nonzero_mask.
  unfold mean, count. now rewrite sum_nonzero.
Qed.

(** On a frame of several columns a row is dropped as soon as one column
    is zero there: with the columns [1, 0] and [2, 4] only the first row
    is kept, and the mean of the second column is 2, not 3. *)
Lemma avg_return_rows_interact :
  avg_return unit (fun f _ _ => f)
             [("a"%string, [1; 0]); ("b"%string, [2; 4])] None true =
  [("a"%string, Fin 1); ("b"%string, Fin 2)].
Proof.
  unfold avg_return. cbn [map fst snd kept_rows]. unfold nonzero_mask.
  cbn [map combine fst snd].
  rewrite (Reqb_false 1 0), (Reqb_false 2 0), (Reqb_true 0 0), (Reqb_false 4 0)
    by (lra || reflexivity).
  cbn [negb andb]. unfold select_rows. cbn [combine filter snd map fst].
  rewrite !mean_nonempty by discriminate.
  unfold avg, count. cbn [length sum fold_right INR].
  repeat f_equal; field.
Qed.

(** *** Value at risk *)

Lemma sum_below_bound (a : R) (l : series) :
  (forall x, In x l -> x < a) -> l <> [] -> sum l < INR (length l) * a.
Proof.
  induction l as [|x l IH]; intros H Hne; [congruence |].
  rewrite sum_cons. change (length (x :: l)) with (S (length l)). rewrite S_INR.
  assert (x < a) by (apply H; now left).
  destruct l as [|y l]; [simpl; lra |].
  assert (sum (y :: l) < INR (length (y :: l)) * a)
    by (apply IH; [intros z Hz; apply H; now right | discriminate]).
  lra.
Qed.

Lemma mean_below_threshold (a b : R) (col : series) :
  mean (below (Fin a) col) = Fin b -> b < a.
Proof.
  intros H. cbn [below] in H.
  set (l := filter (fun x => Rltb x a) col) in *.
  destruct l as [|x t] eqn:E; [rewrite mean_empty in H; discriminate |].
  rewrite mean_nonempty in H by discriminate. injection H as <-.
  assert (Hall : forall z, In z (x :: t) -> z < a).
  { intros z Hz. rewrite <- E in Hz. unfold l in Hz. apply filter_In in Hz.
    destruct Hz as [_ Hz]. unfold Rltb in Hz.
    destruct (Rlt_dec z a); [assumption | discriminate]. }
  pose proof (sum_below_bound a (x :: t) Hall ltac:(discriminate)) as Hs.
  unfold avg, count.
  assert (Hn : 0 < INR (length (x :: t))) by (apply lt_0_INR; simpl; lia).
  apply Rmult_lt_reg_r with (INR (length (x :: t))); [exact Hn |].
  unfold Rdiv. rewrite Rmult_assoc, Rinv_l by lra. lra.
Qed.

(** X19: for a column, [conditional_value_at_risk] is the mean of the
    observations strictly below the value at risk [v] of the column.  It
    is a missing value when no observation is below [v] (in particular
    when [v] is missing), and whenever both are finite the conditional
    value at risk is strictly below the value at risk. *)
Theorem conditional_value_at_risk_below_var :
  forall (ndtri : R -> R) (name : string) (col : series) (sigma confidence : R),
    let v := norm_ppf ndtri (1 - confidence) (mean col) (std col) in
    let c := mean (below v col) in
    value_at_risk ndtri [(name, col)] sigma confidence = Returned [(name, v)] /\
    conditional_value_at_risk ndtri [(name, col)] sigma confidence
      = Returned [(name, c)] /\
    (forall a, v = Fin a -> c = mean (filter (fun x => Rltb x a) col)) /\
    (below v col = [] -> c = NaN) /\
    (v = NaN -> c = NaN) /\
    (forall a b, v = Fin a -> c = Fin b -> b < a).
Proof.
  intros ndtri name col sigma confidence v c.
  assert (Hv : value_at_risk ndtri [(name, col)] sigma confidence = Returned [(name, v)])
    by reflexivity.
  split; [exact Hv |]. split; [| split; [| split; [| split]]].
  - unfold conditional_value_at_risk. rewrite Hv. reflexivity.
  - intros a Ha. unfold c. rewrite Ha. reflexivity.
  - intros E. unfold c. rewrite E. apply mean_empty.
  - intros E. unfold c. rewrite E. apply mean_empty.
  - intros a b Ha Hb. unfold c in Hb. rewrite Ha in Hb.
    now apply mean_below_threshold in Hb.
Qed.

(** *** An asset that follows the benchmark *)

Lemma combine_map_fst (f : R -> R) (b : series) : map fst (combine (map f b) b) = map f b.
Proof. induction b as [|x b IH]; [reflexivity | cbn; now rewrite IH]. Qed.

Lemma combine_map_snd (f : R -> R) (b : series) : map snd (combine (map f b) b) = b.
Proof. induction b as [|x b IH]; [reflexivity | cbn; now rewrite IH]. Qed.

Lemma combine_map_length (f : R -> R) (b : series) :
  length (combine (map f b) b) = length b.
Proof. rewrite length_combine, length_map. apply Nat.min_id. Qed.

Lemma sum_map_affine (a c : R) (s : series) :
  sum (map (fun v => a * v + c) s) = a * sum s + INR (length s) * c.
Proof.
  induction s as [|x s IH]; [simpl; lra |].
  cbn [map]. rewrite !sum_cons, IH.
  change (length (x :: s)) with (S (length s)). rewrite S_INR. lra.
Qed.

Lemma avg_map_affine (a c : R) (s : series) :
  s <> [] -> avg (map (fun v => a * v + c) s) = a * avg s + c.
Proof.
  intros H. unfold avg, count. rewrite length_map, sum_map_affine.
  assert (INR (length s) <> 0).
  { apply not_0_INR. pose proof (nonempty_length _ H). lia. }
  field. assumption.
Qed.

Lemma sum_map_scale (a : R) (g : R -> R) (s : series) :
  sum (map (fun v => a * g v) s) = a * sum (map g s).
Proof.
  induction s as [|x s IH]; [simpl; lra |].
  cbn [map]. rewrite !sum_cons, IH. lra.
Qed.

Lemma sum_codev_affine (a c : R) (b : series) :
  b <> [] ->
  sum_codev (map (fun v => a * v + c) b) b = a * sum_sq_dev b.
Proof.
  intros H. unfold sum_codev, sum_sq_dev.
  rewrite combine_map_fst, combine_map_snd, avg_map_affine by exact H.
  rewrite <- sum_map_scale. generalize (avg b) as m. intros m.
  clear H. induction b as [|x b IH]; [reflexivity |].
  cbn [map combine fst snd]. rewrite !sum_cons, IH. ring.
Qed.

(** X20: an asset whose returns are an affine function [a * b + c] of
    the returns [b] of a benchmark of non-degenerate variance, the asset
    and benchmark columns carrying different labels, has [beta] equal to
    [a] and [alpha] equal to [c * periods]. *)
Theorem beta_alpha_of_affine_asset :
  forall (name bname : string) (b : series) (a c : R) (periods : Z),
    name <> bname -> 0 < sum_sq_dev b ->
    let asset := map (fun v => a * v + c) b in
    beta [(name, asset)] [(bname, b)] = Returned [(name, Fin a)] /\
    alpha [(name, asset)] [(bname, b)] periods = Returned [(name, Fin (c * IZR periods))].
Proof.
  intros name bname b a c periods Hl H asset.
  destruct (cov_self b H) as [Hc Hpos].
  pose proof (nondegenerate_length b H) as Hn.
  assert (Hne : b <> []) by (destruct b; [simpl in Hn; lia | discriminate]).
  set (d := INR (length b) - 1) in *.
  assert (Hd : 0 < d) by (unfold d; apply le_INR in Hn; simpl in Hn; lra).
  assert (Hcov : cov asset b = Fin (a * sum_sq_dev b / d)).
  { unfold cov, asset. rewrite combine_map_length.
    destruct (Nat.leb_spec (length b) 1); [lia |].
    rewrite sum_codev_affine by exact Hne. apply fdiv_fin. fold d. lra. }
  assert (Hq : fdiv (cov asset b) (cov b b) = Fin a).
  { rewrite Hcov, Hc, fdiv_fin by lra. f_equal. field. split; lra. }
  split.
  - rewrite beta_distinct_labels by exact Hl. now rewrite Hq.
  - rewrite alpha_distinct_labels by exact Hl. rewrite Hq.
    rewrite (mean_nonempty b) by exact Hne.
    rewrite (mean_nonempty asset) by (unfold asset; destruct b; [congruence | discriminate]).
    unfold asset. rewrite avg_map_affine by exact Hne.
    cbn [fmul fsub fneg fadd]. do 4 f_equal. ring.
Qed.

Lemma beta_alpha_of_affine_asset_witness :
  "a"%string <> "b"%string /\ 0 < sum_sq_dev [1; 2] /\
  beta [("a"%string, map (fun v => 2 * v + 1) [1; 2])] [("b"%string, [1; 2])]
    = Returned [("a"%string, Fin 2)] /\
  alpha [("a"%string, map (fun v => 2 * v + 1) [1; 2])] [("b"%string, [1; 2])] 252
    = Returned [("a"%string, Fin (1 * IZR 252))].
Proof.
  assert (Hl : "a"%string <> "b"%string) by discriminate.
  assert (H : 0 < sum_sq_dev [1; 2]) by (rewrite sum_sq_dev_one_two; lra).
  split; [exact Hl |]. split; [exact H |].
  exact (beta_alpha_of_affine_asset "a"%string "b"%string [1; 2] 2 1 252 Hl H).
Defined.

(** *** Ulcer index *)

Lemma sum_sq_of_zeros (l : series) :
  (forall x, In x l -> x = 0) -> sum (map (fun v => v * v) l) = 0.
Proof.
  induction l as [|a l IH]; intros H; [reflexivity |].
  cbn [map]. rewrite sum_cons, IH by (intros x Hx; apply H; now right).
  rewrite (H a) by now left. lra.
Qed.

(** X21: on at least two observations, [ulcer_index] is a finite
    non-negative number, whatever the drawdown series; it is zero when,
    and only when, every drawdown is zero. *)
Theorem ulcer_index_nonnegative :
  forall (to_drawdown_series : series -> series) (returns : series),
    (2 <= length returns)%nat ->
    exists v, ulcer_index to_drawdown_series returns = Fin v /\ 0 <= v /\
              (v = 0 <-> forall x, In x (to_drawdown_series returns) -> x = 0).
Proof.
  intros dd returns Hn. unfold ulcer_index.
  set (s := sum (map (fun v => v * v) (dd returns))).
  assert (Hs : 0 <= s) by apply (sum_sq_nonneg (fun x => x)).
  assert (Hd : 0 < IZR (Z.of_nat (length returns) - 1)) by (apply IZR_lt; lia).
  set (d := IZR (Z.of_nat (length returns) - 1)) in *.
  assert (Hq : 0 <= s / d).
  { apply Rmult_le_pos; [exact Hs | left; now apply Rinv_0_lt_compat]. }
  rewrite fdiv_fin, fsqrt_fin by lra.
  eexists. split; [reflexivity |]. split; [apply sqrt_pos |]. split.
  - intros H. apply sqrt_eq_0 in H; [| exact Hq].
    assert (E : s = 0).
    { apply (Rmult_eq_compat_r d) in H. unfold Rdiv in H.
      rewrite Rmult_assoc, Rinv_l, Rmult_1_r, Rmult_0_l in H by lra. exact H. }
    exact (sum_sq_zero (fun x => x) (dd returns) E).
  - intros H. unfold s. rewrite sum_sq_of_zeros by exact H.
    unfold Rdiv. rewrite Rmult_0_l. apply sqrt_0.
Qed.

Lemma ulcer_index_nonnegative_witness :
  (2 <= length [1; 1]%R)%nat /\
  exists v, ulcer_index to_drawdown_series [1; 1] = Fin v /\ 0 <= v /\
            (v = 0 <-> forall x, In x (to_drawdown_series [1; 1]) -> x = 0).
Proof.
  assert (H : (2 <= length [1; 1]%R)%nat) by (simpl; lia).
  split; [exact H |].
  exact (ulcer_index_nonnegative to_drawdown_series [1; 1] H).
Defined.

Lemma sum_sq_dev_affine (a c : R) (b : series) :
  b <> [] -> sum_sq_dev (map (fun v => a * v + c) b) = a * a * sum_sq_dev b.
Proof.
  intros H. unfold sum_sq_dev. rewrite avg_map_affine by exact H.
  rewrite map_map, <- sum_map_scale. f_equal. apply map_ext. intros v. ring.
Qed.

Lemma fpow_unit_square (r : R) : r = 1 \/ r = -1 -> fpow (Fin r) (Fin 2) = Fin 1.
Proof.
  intros [-> | ->]; [apply fpow_one |].
  change 2 with (INR 2). rewrite fpow_nat by lia. f_equal. simpl. lra.
Qed.

(** [linregress] on a non-constant first sample and a second sample of
    the same length and non-zero variance: the correlation of the two. *)
Lemma linregress_rvalue_regular (x y : series) :
  0 < sum_sq_dev x -> 0 < sum_sq_dev y -> length x = length y ->
  linregress_rvalue x y =
  Returned (fclip (-1) 1
              (fdiv (Fin (sum_codev x y / INR (length x)))
                    (fsqrt (Fin (sum_sq_dev x / INR (length x)
                                 * (sum_sq_dev y / INR (length x))))))).
Proof.
  intros Hx Hy Hlen.
  pose proof (nondegenerate_length x Hx) as Hn.
  destruct x as [|x0 xt]; [simpl in Hn; lia |].
  destruct y as [|y0 yt]; [simpl in Hlen; lia |].
  unfold linregress_rvalue.
  rewrite (nondegenerate_not_constant x0 xt Hx). cbn [andb].
  rewrite Hlen, Nat.eqb_refl. cbn [negb].
  rewrite !sum_codev_self. rewrite <- Hlen.
  set (n := INR (length (x0 :: xt))).
  assert (Hnpos : 0 < n) by (unfold n; apply lt_0_INR; simpl; lia).
  assert (0 < sum_sq_dev (x0 :: xt) / n) by (apply Rdiv_lt_0_compat; lra).
  assert (0 < sum_sq_dev (y0 :: yt) / n) by (apply Rdiv_lt_0_compat; lra).
  rewrite !Reqb_false by lra. reflexivity.
Qed.

(** X22: an asset whose returns are an affine function [a * b + c] of
    the benchmark returns [b], with [a <> 0] and a benchmark of
    non-degenerate variance, has [r_squared] equal to 1, whatever the sign
    of [a]. *)
Theorem r_squared_of_affine_asset :
  forall (name : string) (b : series) (a c : R),
    0 < sum_sq_dev b -> a <> 0 ->
    r_squared [(name, map (fun v => a * v + c) b)] b = Returned [(name, Fin 1)].
Proof.
  intros name b a c H Ha.
  pose proof (nondegenerate_length b H) as Hn.
  assert (Hne : b <> []) by (destruct b; [simpl in Hn; lia | discriminate]).
  assert (Haa : 0 < a * a) by nra.
  unfold r_squared, clean_frame, clean. cbn [map fst snd r_squared_columns].
  rewrite linregress_rvalue_regular;
    [| rewrite sum_sq_dev_affine by exact Hne; nra | exact H | apply length_map].
  rewrite sum_sq_dev_affine, sum_codev_affine, length_map by exact Hne.
  set (n := INR (length b)). set (S0 := sum_sq_dev b) in *.
  assert (Hnpos : 0 < n) by (unfold n; apply lt_0_INR; lia).
  assert (Hq : 0 < S0 / n) by (apply Rdiv_lt_0_compat; lra).
  assert (Hprod : a * a * S0 / n * (S0 / n) = (Rabs a * (S0 / n)) * (Rabs a * (S0 / n))).
  { replace (Rabs a * (S0 / n) * (Rabs a * (S0 / n)))
      with ((Rabs a * Rabs a) * (S0 / n) * (S0 / n)) by ring.
    rewrite <- Rabs_mult, (Rabs_pos_eq (a * a)) by lra. field. lra. }
  assert (Habs : 0 < Rabs a) by now apply Rabs_pos_lt.
  assert (Hden : 0 < Rabs a * (S0 / n)) by (apply Rmult_lt_0_compat; lra).
  rewrite fsqrt_fin by (rewrite Hprod; nra).
  rewrite Hprod, sqrt_square by lra.
  rewrite fdiv_fin by lra.
  assert (Hsign : a * S0 / n / (Rabs a * (S0 / n)) = a / Rabs a)
    by (field; repeat split; lra).
  rewrite Hsign. unfold fclip. cbn [bind].
  destruct (Rlt_dec 0 a) as [Hp | Hp].
  - rewrite (Rabs_pos_eq a) by lra.
    replace (a / a) with 1 by (field; lra).
    real_cases. now rewrite fpow_unit_square by now left.
  - rewrite (Rabs_left a) by lra.
    replace (a / - a) with (-1) by (field; lra).
    real_cases. now rewrite fpow_unit_square by now right.
Qed.

Lemma r_squared_of_affine_asset_witness :
  0 < sum_sq_dev [1; 2] /\ -2 <> 0 /\
  r_squared [("a"%string, map (fun v => -2 * v + 1) [1; 2])] [1; 2]
    = Returned [("a"%string, Fin 1)].
Proof.
  assert (H : 0 < sum_sq_dev [1; 2]) by (rewrite sum_sq_dev_one_two; lra).
  assert (Ha : -2 <> 0) by lra.
  split; [exact H |]. split; [exact Ha |].
  exact (r_squared_of_affine_asset "a"%string [1; 2] (-2) 1 H Ha).
Defined.
